(** * giftexchange: the pairing generator of [generate.py]

    A shallow embedding of [generate.py] and the properties of its
    specification.

    Modelling conventions.
    - A Python [str] is a [string]; one [ascii] stands for one code point
      below 256 (Latin-1), the range on which [str.lower] acts character by
      character.  Outside that range [str.lower] looks at the neighbours of
      a character, so the proofs about keys use of [lower] only that it
      commutes with [strip], which holds there too.
    - A person is the tuple [(name, groupIndex)], a pairing the tuple
      [(giver, getter)].
    - The [set] of accepted pairings is a [gset]; the two pools are lists,
      as in the source, so [list.remove] drops the first occurrence.
    - [random.choice] reads a random source [rng : nat -> nat]; every call
      consumes one number and picks the element at that number modulo the
      length of the sequence, so every choice the library can make is made
      by some source.
    - The [while] loops run on fuel.  For [AttemptToGenPairings] the fuel is
      computed from the arguments and is shown to be enough; the loop of
      [GenPairings] has no bound in the source and keeps its fuel argument. *)

From Stdlib Require Import Ascii String DecimalString Sorting.Sorted.
From stdpp Require Import base tactics option list sorting gmap strings.

Local Open Scope nat_scope.

(** ** Python string primitives *)

Module PyStr.

Definition code (c : ascii) : nat := nat_of_ascii c.

(** [str.isspace] on one code point below 256. *)
Definition is_space (c : ascii) : bool :=
  let n := code c in
  ((9 <=? n) && (n <=? 13)) || ((28 <=? n) && (n <=? 32))
  || (n =? 133) || (n =? 160).

(** [str.lower] on one code point below 256. *)
Definition lower_char (c : ascii) : ascii :=
  let n := code c in
  if ((65 <=? n) && (n <=? 90))
     || ((192 <=? n) && (n <=? 222) && negb (n =? 215))
  then ascii_of_nat (n + 32) else c.

Definition is_quote (c : ascii) : bool := (code c =? 34).
Definition is_colon (c : ascii) : bool := (code c =? 58).

(** [s.lower()] *)
Fixpoint lower (s : string) : string :=
  match s with
  | EmptyString => EmptyString
  | String c s' => String (lower_char c) (lower s')
  end.

(** [s.lstrip()] *)
Fixpoint lstrip (s : string) : string :=
  match s with
  | EmptyString => EmptyString
  | String c s' => if is_space c then lstrip s' else s
  end.

(** [s.rstrip()] *)
Fixpoint rstrip (s : string) : string :=
  match s with
  | EmptyString => EmptyString
  | String c s' =>
      match rstrip s' with
      | EmptyString => if is_space c then EmptyString else String c EmptyString
      | r => String c r
      end
  end.

(** [s.strip()] *)
Definition strip (s : string) : string := lstrip (rstrip s).

(** [s.replace(q, '')] where [q] is the double-quote character, code 34. *)
Fixpoint remove_quotes (s : string) : string :=
  match s with
  | EmptyString => EmptyString
  | String c s' =>
      if is_quote c then remove_quotes s' else String c (remove_quotes s')
  end.

(** ['%d' % n] for an index [n >= 0]. *)
Definition fmt_d (n : nat) : string := NilZero.string_of_uint (Nat.to_uint n).

(** [sep.join(ls)] *)
Definition join (sep : string) (ls : list string) : string :=
  String.concat sep ls.

(** Puts [c] in front of the first piece of a split. *)
Definition push_front (c : ascii) (pieces : list string) : list string :=
  match pieces with
  | [] => [String c EmptyString]
  | h :: t => String c h :: t
  end.

(** [s.split('::')]: cut at the leftmost occurrences of the delimiter,
    which do not overlap. *)
Fixpoint split_colons (s : string) : list string :=
  match s with
  | EmptyString => [EmptyString]
  | String c rest =>
      match rest with
      | String c2 rest2 =>
          if is_colon c && is_colon c2
          then EmptyString :: split_colons rest2
          else push_front c (split_colons rest)
      | EmptyString => push_front c (split_colons rest)
      end
  end.

End PyStr.

Import PyStr.

(** ** Data model *)

(** [(name, groupIndex)] *)
Definition person : Type := string * nat.
(** [(giver, getter)] *)
Definition pairing : Type := person * person.

(** ** [PairingToString] (lines 114-121) *)

Definition PairingToString (p : pairing) : string :=
  let '(giver, getter) := p in
  let '(giverName, giverGroup) := giver in
  let giverName := remove_quotes (strip (lower giverName)) in
  let '(getterName, getterGroup) := getter in
  let getterName := remove_quotes (strip (lower getterName)) in
  fmt_d giverGroup +:+ giverName +:+ "-" +:+ fmt_d getterGroup +:+ getterName.

(** A string holding one double-quote character. *)
Definition dq : string := String (ascii_of_nat 34) EmptyString.
(** A string holding one newline character. *)
Definition nl : string := String (ascii_of_nat 10) EmptyString.

(** ** [LoadGroups] (lines 14-25)

    The file is read and parsed by the [json] library; the embedding starts
    from the parsed object, whose [lastRun] field may be absent. *)

Record config := Config {
  cfg_groups : list (list string);
  cfg_lastRun : option string;
}.

Definition LoadGroups (cfg : config) : list (list string) * list string :=
  let groups := cfg_groups cfg in
  let lastRun := strip (default EmptyString (cfg_lastRun cfg)) in
  let lastRun :=
    match lastRun with
    | EmptyString => []
    | _ => split_colons lastRun
    end in
  (groups, lastRun).

(** ** [AttemptToGenPairings] (lines 27-88) *)

(** Lines 35-41: the pool built by the two nested loops, group [i] first. *)
Fixpoint enumerate_people (i : nat) (groups : list (list string)) : list person :=
  match groups with
  | [] => []
  | names :: rest => map (fun name => (name, i)) names ++ enumerate_people (S i) rest
  end.

Definition people (groups : list (list string)) : list person :=
  enumerate_people 0 groups.

Inductive py_exception := IndexError | ValueError.

(** [random.choice(seq)] at position [k] of the random source; [None] is the
    [IndexError] raised on an empty sequence. *)
Definition RC {A} (rng : nat -> nat) (seq : list A) (k : nat) : option (A * nat) :=
  match seq with
  | [] => None
  | _ :: _ => (fun x => (x, S k)) <$> seq !! (rng k mod length seq)
  end.

(** [l.remove(x)]: drops the first occurrence; [None] is the [ValueError]
    raised when there is none. *)
Fixpoint list_remove (x : person) (l : list person) : option (list person) :=
  match l with
  | [] => None
  | y :: l' => if decide (x = y) then Some l' else (cons y) <$> list_remove x l'
  end.

(** The local variables of the loop, with the position in the random source. *)
Record loop_state := LoopState {
  givers : list person;
  getters : list person;
  pairings : gset pairing;
  attempts : nat;
  drawn : nat;
}.

(** How a call ends. [Stuck] is the [return None] of line 50, [Leftover] the
    [return None] of line 86 after its message, [Completed] the
    [return pairings] of line 88 after the message with the counter. *)
Inductive attempt_result :=
| Stuck
| Leftover (getters : list person)
| Completed (pairings : gset pairing) (attempts : nat)
| Raised (e : py_exception)
| Unfinished.

(** The value the caller sees: [Some None] is Python's [None]. *)
Definition returned (r : attempt_result) : option (option (gset pairing)) :=
  match r with
  | Stuck | Leftover _ => Some None
  | Completed ps _ => Some (Some ps)
  | Raised _ | Unfinished => None
  end.

Inductive iteration_result :=
| Continue (st : loop_state)
| ReturnNone
| Raise (e : py_exception).

(** Lines 49-82: one pass through the body of [while givers]. *)
Definition iteration (rng : nat -> nat) (lastRun : list string) (maxAttempts : nat)
    (st : loop_state) : iteration_result * nat :=
  if maxAttempts <? attempts st then (ReturnNone, drawn st) else
  match RC rng (givers st) (drawn st) with
  | None => (Raise IndexError, drawn st)
  | Some (giver, k1) =>
  match RC rng (getters st) k1 with
  | None => (Raise IndexError, k1)
  | Some (getter, k2) =>
    let again :=
      (Continue (LoopState (givers st) (getters st) (pairings st)
                           (S (attempts st)) k2), k2) in
    if bool_decide (giver = getter) then again
    else if bool_decide (giver.2 = getter.2) then again
    else
      let pairing := (giver, getter) in
      let inverse := (getter, giver) in
      if bool_decide (PairingToString pairing ∈ lastRun) then again
      else if bool_decide (pairing ∈ pairings st)
              || bool_decide (inverse ∈ pairings st) then again
      else
        let pairings' := {[pairing]} ∪ pairings st in
        match list_remove giver (givers st) with
        | None => (Raise ValueError, k2)
        | Some givers' =>
        match list_remove getter (getters st) with
        | None => (Raise ValueError, k2)
        | Some getters' =>
            (Continue (LoopState givers' getters' pairings' (attempts st) k2), k2)
        end end
  end end.

(** Lines 48-88: the loop and what follows it. *)
Fixpoint while_givers (fuel : nat) (rng : nat -> nat) (lastRun : list string)
    (maxAttempts : nat) (st : loop_state) : attempt_result * nat :=
  match fuel with
  | 0 => (Unfinished, drawn st)
  | S fuel' =>
      match givers st with
      | [] =>
          match getters st with
          | _ :: _ => (Leftover (getters st), drawn st)
          | [] => (Completed (pairings st) (attempts st), drawn st)
          end
      | _ :: _ =>
          match iteration rng lastRun maxAttempts st with
          | (Continue st', _) => while_givers fuel' rng lastRun maxAttempts st'
          | (ReturnNone, k) => (Stuck, k)
          | (Raise e, k) => (Raised e, k)
          end
      end
  end.

(** Lines 35-46: the state on entry to the loop. *)
Definition initial_state (groups : list (list string)) (k : nat) : loop_state :=
  LoopState (people groups) (people groups) ∅ 0 k.

(** Every pass either counts a failure, which can happen [maxAttempts + 1]
    times, or removes a giver; one more pass leaves the loop. *)
Definition passes (maxAttempts : nat) (st : loop_state) : nat :=
  (S maxAttempts - attempts st) + length (givers st) + 1.

Definition AttemptToGenPairings (rng : nat -> nat) (groups : list (list string))
    (lastRun : list string) (maxAttempts : nat) (k : nat) : attempt_result * nat :=
  let st := initial_state groups k in
  while_givers (passes maxAttempts st) rng lastRun maxAttempts st.

Definition default_maxAttempts : nat := 1000.

(** ** [GenPairings] (lines 90-100)

    [while 1] has no bound: [None] is a run that has not come back within
    [fuel] attempts.  The random source is shared by the attempts, each
    continuing where the one before stopped. *)

Inductive py_result (A : Type) :=
| Return (a : A)
| Exception (e : py_exception).
Arguments Return {A} a.
Arguments Exception {A} e.

Fixpoint GenPairings (fuel : nat) (rng : nat -> nat) (groups : list (list string))
    (lastRun : list string) (k : nat) : option (py_result (gset pairing)) :=
  match fuel with
  | 0 => None
  | S fuel' =>
      match AttemptToGenPairings rng groups lastRun default_maxAttempts k with
      | (Completed ps _, _) => Some (Return ps)
      | (Stuck, k') | (Leftover _, k') => GenPairings fuel' rng groups lastRun k'
      | (Raised e, _) => Some (Exception e)
      | (Unfinished, _) => None
      end
  end.

(** ** [HaveDuplicateNames] (lines 102-112) *)

(** The body of the inner loop, run over the names of all groups in order. *)
Fixpoint seen_twice (knownNames : gset string) (names : list string) : bool :=
  match names with
  | [] => false
  | name :: rest =>
      let name := strip (lower name) in
      if bool_decide (name ∈ knownNames) then true
      else seen_twice ({[name]} ∪ knownNames) rest
  end.

Definition HaveDuplicateNames (groups : list (list string)) : bool :=
  seen_twice ∅ (concat groups).

(** ** [FormatPairings] (lines 123-140) *)

(** Python's order on tuples: first components first, strings by code
    point, integers by value. *)
Definition tuple_compare {A B : Type} (cmpA : A -> A -> comparison)
    (cmpB : B -> B -> comparison) (a b : A * B) : comparison :=
  match cmpA a.1 b.1 with
  | Eq => cmpB a.2 b.2
  | c => c
  end.

Definition person_compare : person -> person -> comparison :=
  tuple_compare String.compare Nat.compare.

Definition pairing_compare : pairing -> pairing -> comparison :=
  tuple_compare person_compare person_compare.

Definition pairing_le (p q : pairing) : Prop := pairing_compare p q <> Gt.

#[global] Instance pairing_le_dec (p q : pairing) : Decision (pairing_le p q).
Proof. unfold pairing_le. apply _. Defined.

(** [sorted(pairings)] *)
Definition sorted (ps : gset pairing) : list pairing :=
  merge_sort pairing_le (elements ps).

(** Lines 133-137: one line of the listing. *)
Definition print_line (showGroups : bool) (p : pairing) : string :=
  let '(giver, getter) := p in
  let '(giverName, giverGroup) := giver in
  let '(getterName, getterGroup) := getter in
  if showGroups
  then giverName +:+ " (" +:+ fmt_d giverGroup +:+ ") gives to "
       +:+ getterName +:+ " (" +:+ fmt_d getterGroup +:+ ")"
  else giverName +:+ " gives to " +:+ getterName.

(** [groups] is the module-level variable the function reads. *)
Definition FormatPairings (groups : list (list string)) (ps : gset pairing)
    : string * string :=
  let showGroups := HaveDuplicateNames groups in
  let printLines := map (print_line showGroups) (sorted ps) in
  let lastRuns := map PairingToString (sorted ps) in
  (join nl printLines, join "::" lastRuns).

(** ** The properties of the specification *)

(** Invariants 1 and 2, with multiplicity: the givers of the set are the
    people of the groups, each as often as the groups list them, and so are
    the getters. *)
Definition covers_people (groups : list (list string)) (ps : gset pairing) : Prop :=
  size ps = length (people groups)
  /\ (elements ps).*1 ≡ₚ people groups
  /\ (elements ps).*2 ≡ₚ people groups.

(** Invariants 3 to 6 for one pairing of a set. *)
Definition allowed (lastRun : list string) (ps : gset pairing) (p : pairing) : Prop :=
  (p.1 <> p.2)
  /\ (p.1.2 <> p.2.2)
  /\ (PairingToString p ∉ lastRun)
  /\ ((p.2, p.1) ∉ ps).

Definition valid_MatchSet (groups : list (list string)) (lastRun : list string)
    (ps : gset pairing) : Prop :=
  covers_people groups ps /\ forall p, p ∈ ps -> allowed lastRun ps p.

(** The pairings of [ps] in which [x] gives, and those in which [x] gets. *)
Definition gifts_from (ps : gset pairing) (x : person) : list pairing :=
  filter (fun p => p.1 = x) (elements ps).
Definition gifts_to (ps : gset pairing) (x : person) : list pairing :=
  filter (fun p => p.2 = x) (elements ps).

(** Every person of the groups gives in exactly one pairing of [ps] and gets
    in exactly one. *)
Definition exactly_once (groups : list (list string)) (ps : gset pairing) : Prop :=
  forall x, x ∈ people groups ->
    length (gifts_from ps x) = 1 /\ length (gifts_to ps x) = 1.

(** Every person gives, and gets, as often as the groups list that person. *)
Definition as_often_as_listed (groups : list (list string)) (ps : gset pairing) : Prop :=
  forall x,
    length (gifts_from ps x) = length (filter (fun y => y = x) (people groups))
    /\ length (gifts_to ps x) = length (filter (fun y => y = x) (people groups)).

(** The key as the specification words it: group index, then the name in
    lower case without double quotes, on each side of a hyphen. *)
Definition PairingKey_spec (p : pairing) : string :=
  fmt_d p.1.2 +:+ remove_quotes (lower p.1.1) +:+ "-"
  +:+ fmt_d p.2.2 +:+ remove_quotes (lower p.2.1).

(** Two people of the groups, at different places, with the same name up to
    the normal form [norm]. *)
Definition share_name (norm : string -> string) (groups : list (list string)) : Prop :=
  exists i j a b, i < j /\ concat groups !! i = Some a /\ concat groups !! j = Some b
    /\ norm a = norm b.

(** Names that differ only by letter case, by leading or trailing
    whitespace, or by double-quote characters. *)
Inductive differ_only : string -> string -> Prop :=
| differ_case a b : lower a = lower b -> differ_only a b
| differ_space a b : strip a = strip b -> differ_only a b
| differ_quotes a b : remove_quotes a = remove_quotes b -> differ_only a b
| differ_trans a b c : differ_only a b -> differ_only b c -> differ_only a c.

(** Names whose lower-cased texts, made by [low], are equal, or that differ
    only by leading or trailing whitespace, or whose lower-cased texts
    differ only by double-quote characters and have no whitespace at either
    end once the quotes are removed. *)
Inductive differ_harmlessly (low : string -> string) : string -> string -> Prop :=
| harmless_case a b : low a = low b -> differ_harmlessly low a b
| harmless_space a b : strip a = strip b -> differ_harmlessly low a b
| harmless_quotes a b :
    remove_quotes (low a) = remove_quotes (low b) ->
    strip (remove_quotes (low a)) = remove_quotes (low a) ->
    differ_harmlessly low a b
| harmless_trans a b c :
    differ_harmlessly low a b -> differ_harmlessly low b c ->
    differ_harmlessly low a c.

(** Invariants 1 to 6 as the specification words them: one pairing per
    person, every person giving exactly once and getting exactly once, and
    every pairing allowed. *)
Definition invariants_1_to_6 (groups : list (list string)) (lastRun : list string)
    (ps : gset pairing) : Prop :=
  size ps = length (people groups)
  /\ exactly_once groups ps
  /\ forall p, p ∈ ps -> allowed lastRun ps p.

(** No occurrence of the delimiter in [s] and no colon at its end. *)
Fixpoint colon_free (s : string) : bool :=
  match s with
  | EmptyString => true
  | String c rest =>
      match rest with
      | EmptyString => negb (is_colon c)
      | String c2 _ => (negb (is_colon c && is_colon c2)) && colon_free rest
      end
  end.

(** The last character of [s] is not whitespace. *)
Definition tight_end (s : string) : Prop := rstrip s = s.

(** ** Auxiliary notions for the proofs *)

(** A comparison function that decides a strict total order. *)
Record order_compare {A : Type} (cmp : A -> A -> comparison) : Prop := {
  cmp_eq : forall x y, cmp x y = Eq <-> x = y;
  cmp_antisym : forall x y, cmp y x = CompOpp (cmp x y);
  cmp_lt_trans : forall x y z, cmp x y = Lt -> cmp y z = Lt -> cmp x z = Lt;
}.

(** The invariant of the loop: the accepted givers and the pool of givers
    make up the people, and so do the getters; every accepted pairing is
    allowed. *)
Definition loop_inv (groups : list (list string)) (lastRun : list string)
    (st : loop_state) : Prop :=
  (elements (pairings st)).*1 ++ givers st ≡ₚ people groups
  /\ (elements (pairings st)).*2 ++ getters st ≡ₚ people groups
  /\ forall p, p ∈ pairings st -> allowed lastRun (pairings st) p.

(** The state at the head of the loop after [n] passes, when the loop gets
    that far. *)
Fixpoint state_after (n : nat) (rng : nat -> nat) (lastRun : list string)
    (maxAttempts : nat) (st : loop_state) : option loop_state :=
  match n with
  | 0 => Some st
  | S n' =>
      match givers st with
      | [] => None
      | _ :: _ =>
          match iteration rng lastRun maxAttempts st with
          | (Continue st', _) => state_after n' rng lastRun maxAttempts st'
          | _ => None
          end
      end
  end.

(** The place of the first [x] in [l]. *)
Fixpoint index_of (x : person) (l : list person) : nat :=
  match l with
  | [] => 0
  | y :: l' => if decide (x = y) then 0 else S (index_of x l')
  end.

(** The numbers to draw so that the loop accepts the pairings of [M] one
    after the other, from the pools [givers] and [getters]. *)
Fixpoint draws_for (M : list pairing) (givers getters : list person) : list nat :=
  match M with
  | [] => []
  | (g, r) :: M' =>
      index_of g givers :: index_of r getters
      :: draws_for M' (default givers (list_remove g givers))
                      (default getters (list_remove r getters))
  end.

(** The random source that yields the numbers of [draws], then zeros. *)
Definition replay (draws : list nat) : nat -> nat :=
  fun k => default 0 (draws !! k).

(** The random source that always yields zero. *)
Definition zeros : nat -> nat := fun _ => 0.

(** Some character of [s] satisfies [f]. *)
Fixpoint has_char (f : ascii -> bool) (s : string) : bool :=
  match s with
  | EmptyString => false
  | String c s' => f c || has_char f s'
  end.

(** Every character of [s] is whitespace. *)
Definition blank (s : string) : bool :=
  negb (has_char (fun c => negb (is_space c)) s).

(** The bookkeeping of the loop entered at position [k] of the random
    source: two numbers are drawn per failed draw and per accepted pairing,
    and the counter passes the bound only with givers left. *)
Definition accounted (maxAttempts k : nat) (st : loop_state) : Prop :=
  drawn st = k + 2 * (attempts st + size (pairings st))
  /\ (attempts st <= maxAttempts
      \/ (attempts st = S maxAttempts /\ givers st <> [])).

(** [c] is one of the ten decimal digits. *)
Definition is_digit (c : ascii) : bool := (48 <=? code c) && (code c <=? 57).

(** ** Inputs used in the examples *)

Definition two_couples : list (list string) := [["Alice"; "Bob"]; ["Carol"; "Dave"]].
Definition two_couples_rng : nat -> nat := replay [0; 2; 0; 2; 0; 1; 0; 0].
Definition two_couples_set : gset pairing :=
  list_to_set [(("Alice", 0), ("Carol", 1)); (("Bob", 0), ("Dave", 1));
               (("Carol", 1), ("Bob", 0)); (("Dave", 1), ("Alice", 0))].

Definition twins : list (list string) := [["A"; "A"]; ["B"]; ["C"]; ["D"]; ["E"]].
Definition twins_rng : nat -> nat := replay [0; 2; 0; 2; 0; 2; 0; 2; 0; 0; 0; 0].
Definition twins_set : gset pairing :=
  list_to_set [(("A", 0), ("B", 1)); (("A", 0), ("C", 2)); (("B", 1), ("D", 3));
               (("C", 2), ("E", 4)); (("D", 3), ("A", 0)); (("E", 4), ("A", 0))].

Definition three_and_one : list (list string) := [["A"; "B"; "C"]; ["D"]].

Definition colon_name_set : gset pairing := {[ (("a::b", 0), ("c", 1)) ]}.

Definition spaced_groups : list (list string) := [[" Al"; "Bob"]; ["al"; "Dave"]].
Definition spaced_set : gset pairing :=
  list_to_set [((" Al", 0), ("al", 1)); (("Bob", 0), ("Dave", 1));
               (("al", 1), ("Bob", 0)); (("Dave", 1), (" Al", 0))].

Definition next_year_rng : nat -> nat := replay [0; 3; 0; 2; 0; 0; 0; 0].
Definition next_year_set : gset pairing :=
  list_to_set [(("Alice", 0), ("Dave", 1)); (("Bob", 0), ("Carol", 1));
               (("Carol", 1), ("Alice", 0)); (("Dave", 1), ("Bob", 0))].

(** * Proofs *)

(** ** Characters *)

Ltac all_chars c :=
  destruct c as [[] [] [] [] [] [] [] []]; vm_compute; try reflexivity; try discriminate.

Lemma is_space_lower_char c : is_space (lower_char c) = is_space c.
Proof. all_chars c. Qed.

Lemma space_not_quote c : is_space c = true -> is_quote c = false.
Proof. all_chars c. Qed.

(** ** [lower], [strip] and [remove_quotes] *)

Lemma lower_lstrip s : lower (lstrip s) = lstrip (lower s).
Proof.
  induction s as [|c s IH]; simpl; [done|].
  rewrite is_space_lower_char. by destruct (is_space c).
Qed.

Lemma lower_rstrip s : lower (rstrip s) = rstrip (lower s).
Proof.
  induction s as [|c s IH]; simpl; [done|].
  rewrite <- IH, is_space_lower_char.
  destruct (rstrip s) as [|d r]; simpl; [|done].
  by destruct (is_space c).
Qed.

Lemma lower_strip s : lower (strip s) = strip (lower s).
Proof. unfold strip. by rewrite lower_lstrip, lower_rstrip. Qed.

Lemma lstrip_length s : String.length (lstrip s) <= String.length s.
Proof. induction s as [|c s IH]; simpl; [done|]. destruct (is_space c); simpl; lia. Qed.

Lemma rstrip_length s : String.length (rstrip s) <= String.length s.
Proof.
  induction s as [|c s IH]; simpl; [done|].
  destruct (rstrip s); [destruct (is_space c)|]; simpl in *; lia.
Qed.

Lemma lstrip_same_length s :
  String.length (lstrip s) = String.length s -> lstrip s = s.
Proof.
  destruct s as [|c s]; simpl; [done|].
  destruct (is_space c); [|done].
  pose proof (lstrip_length s). lia.
Qed.

Lemma rstrip_same_length s :
  String.length (rstrip s) = String.length s -> rstrip s = s.
Proof.
  induction s as [|c s IH]; simpl; [done|].
  pose proof (rstrip_length s) as Hle.
  destruct (rstrip s) as [|d r] eqn:E.
  - destruct (is_space c); simpl; intros H; [lia|].
    destruct s; [done|simpl in H; lia].
  - simpl. intros H. f_equal. apply IH. simpl. lia.
Qed.

(** A string that [strip] leaves alone is left alone by both halves. *)
Lemma strip_fixed s : strip s = s -> rstrip s = s /\ lstrip s = s.
Proof.
  unfold strip. intros H.
  pose proof (lstrip_length (rstrip s)). pose proof (rstrip_length s).
  assert (rstrip s = s) as Hr.
  { apply rstrip_same_length. rewrite H in *. lia. }
  split; [done|]. by rewrite Hr in H.
Qed.

Lemma remove_quotes_lstrip s :
  lstrip (remove_quotes s) = remove_quotes s -> remove_quotes (lstrip s) = remove_quotes s.
Proof.
  destruct s as [|c s]; simpl; [done|].
  destruct (is_space c) eqn:Hs; [|done].
  rewrite (space_not_quote c Hs). simpl. rewrite Hs. intros H.
  pose proof (lstrip_length (remove_quotes s)) as Hle.
  rewrite H in Hle. simpl in Hle. lia.
Qed.

Lemma remove_quotes_rstrip s :
  rstrip (remove_quotes s) = remove_quotes s -> remove_quotes (rstrip s) = remove_quotes s.
Proof.
  induction s as [|c s IH]; simpl; [done|].
  destruct (is_quote c) eqn:Hq.
  - intros H. specialize (IH H).
    destruct (rstrip s) as [|d r] eqn:E.
    + destruct (is_space c) eqn:Hs; [by rewrite (space_not_quote c Hs) in Hq|].
      simpl. by rewrite Hq.
    + rewrite <- IH. simpl. by rewrite Hq.
  - simpl. intros H.
    assert (rstrip (remove_quotes s) = remove_quotes s) as H'.
    { destruct (rstrip (remove_quotes s)) as [|d r] eqn:E.
      - destruct (is_space c); [done|]. by simplify_eq.
      - by simplify_eq. }
    specialize (IH H').
    destruct (rstrip s) as [|d r] eqn:E.
    + simpl in IH. rewrite <- IH in H. simpl in H.
      destruct (is_space c); [done|]. simpl. by rewrite Hq, <- IH.
    + rewrite <- IH. simpl. by rewrite Hq.
Qed.

Lemma remove_quotes_strip s :
  strip (remove_quotes s) = remove_quotes s -> remove_quotes (strip s) = remove_quotes s.
Proof.
  intros [Hr Hl]%strip_fixed. unfold strip.
  rewrite remove_quotes_lstrip; rewrite (remove_quotes_rstrip s Hr); done.
Qed.

(** The normal form of a name inside a key, for any lower-casing [low] that
    commutes with [strip]. *)
Lemma key_name_differ (low : string -> string) a b :
  (forall s, low (strip s) = strip (low s)) ->
  differ_harmlessly low a b ->
  remove_quotes (strip (low a)) = remove_quotes (strip (low b)).
Proof.
  intros Hlow. induction 1 as [a b H|a b H|a b Hab Ha|a b c _ IH1 _ IH2].
  - by rewrite H.
  - by rewrite <- !Hlow, H.
  - assert (strip (remove_quotes (low b)) = remove_quotes (low b)) as Hb
      by by rewrite <- Hab.
    by rewrite (remove_quotes_strip _ Ha), (remove_quotes_strip _ Hb).
  - congruence.
Qed.

(** ** The canonical key *)

Example PairingToString_alice_bob :
  PairingToString (("Alice", 0), ("Bob", 1)) = "0alice-1bob".
Proof. reflexivity. Qed.

Example PairingToString_trim :
  PairingToString (("  Al ICE ", 12), (dq +:+ "B" +:+ dq +:+ "ob", 3))
  = "12al ice-3bob".
Proof. reflexivity. Qed.

(** C8, as stated, fails: for a giver named [" Al"] the source trims the
    name, so the key is not the group index followed by the name in lower
    case without double quotes. *)
Lemma C8_key_is_trimmed :
  PairingToString ((" Al", 0), ("Bob", 1)) = "0al-1bob"
  /\ PairingKey_spec ((" Al", 0), ("Bob", 1)) = "0 al-1bob"
  /\ PairingToString ((" Al", 0), ("Bob", 1))
     <> PairingKey_spec ((" Al", 0), ("Bob", 1)).
Proof. repeat split. discriminate. Qed.

(** C8, amended: [PairingToString] returns the giver's group index, the
    giver's name trimmed of leading and trailing whitespace, in lower case
    and without double quotes, a hyphen, and the same for the getter; that
    is, the key the specification words, taken on the trimmed names. *)
Theorem C8_PairingToString_format giverName giverGroup getterName getterGroup :
  PairingToString ((giverName, giverGroup), (getterName, getterGroup))
  = PairingKey_spec ((strip giverName, giverGroup), (strip getterName, getterGroup)).
Proof.
  unfold PairingToString, PairingKey_spec. simpl.
  by rewrite !lower_strip.
Qed.

(** C10, as stated, fails: a name in double quotes with a space inside them
    differs from the unquoted name only by double-quote characters, and the
    two keys differ, because the quotes are removed after the trimming. *)
Lemma C10_quotes_shield_whitespace :
  differ_only (dq +:+ " a" +:+ dq) " a"
  /\ PairingToString ((dq +:+ " a" +:+ dq, 0), ("b", 1)) = "0 a-1b"
  /\ PairingToString ((" a", 0), ("b", 1)) = "0a-1b"
  /\ ~ (forall a a' b b' g r,
          differ_only a a' -> differ_only b b' ->
          PairingToString ((a, g), (b, r)) = PairingToString ((a', g), (b', r))).
Proof.
  assert (differ_only (dq +:+ " a" +:+ dq) " a") as Hd
    by (apply differ_quotes; reflexivity).
  repeat split; [done|].
  intros H.
  specialize (H (dq +:+ " a" +:+ dq) " a" "b" "b" 0 1 Hd
                (differ_case "b" "b" eq_refl)).
  discriminate H.
Qed.

(** C10, amended: two pairings with the same group indices get the same key
    when their names differ only by letter case (their lower-cased texts
    are equal), by leading or trailing whitespace, or, once lower-cased, by
    double-quote characters in a text that without the quotes has no
    whitespace at either end; so a name with whitespace around it collides
    with the trimmed name.  Of the lower-casing the proof uses only that
    it commutes with the trimming. *)
Theorem C10_keys_collide a a' b b' g r :
  differ_harmlessly lower a a' -> differ_harmlessly lower b b' ->
  PairingToString ((a, g), (b, r)) = PairingToString ((a', g), (b', r)).
Proof.
  intros Ha Hb. unfold PairingToString.
  by rewrite (key_name_differ lower a a' lower_strip Ha),
             (key_name_differ lower b b' lower_strip Hb).
Qed.

Lemma C10_keys_collide_witness :
  PairingToString (("  ALICE ", 0), (dq +:+ "Bob" +:+ dq, 1))
  = PairingToString (("alice", 0), ("bob", 1)).
Proof.
  apply (C10_keys_collide "  ALICE " "alice" (dq +:+ "Bob" +:+ dq) "bob" 0 1).
  - apply (harmless_trans _ _ "ALICE").
    + apply harmless_space. reflexivity.
    + apply harmless_case. reflexivity.
  - apply harmless_quotes; reflexivity.
Defined.

(** ** [random.choice] and [list.remove] *)

Lemma RC_Some {A} rng (seq : list A) k x k' :
  RC rng seq k = Some (x, k') -> x ∈ seq /\ k' = S k.
Proof.
  unfold RC. destruct seq as [|y seq]; [done|].
  destruct ((y :: seq) !! _) as [z|] eqn:E; simpl; [|done].
  intros [= -> <-]. split; [|done]. by eapply list_elem_of_lookup_2.
Qed.

Lemma RC_nonempty {A} rng (seq : list A) k :
  seq <> [] -> exists x, RC rng seq k = Some (x, S k).
Proof.
  unfold RC. destruct seq as [|y seq]; [done|]. intros _.
  destruct (lookup_lt_is_Some_2 (y :: seq) (rng k mod length (y :: seq))) as [z Hz].
  { apply Nat.mod_upper_bound. simpl. lia. }
  exists z. by rewrite Hz.
Qed.

Lemma list_remove_Some x l l' : list_remove x l = Some l' -> l ≡ₚ x :: l'.
Proof.
  revert l'. induction l as [|y l IH]; simpl; [done|]. intros l'.
  destruct (decide (x = y)) as [->|]; [by intros [= ->]|].
  destruct (list_remove x l) as [l''|]; simpl; [|done].
  intros [= <-]. rewrite (IH l'' eq_refl). apply Permutation_swap.
Qed.

Lemma list_remove_elem_of x l : x ∈ l -> is_Some (list_remove x l).
Proof.
  induction l as [|y l IH]; simpl; [by intros ?%elem_of_nil|].
  intros [Heq|Hx]%elem_of_cons; destruct (decide (x = y)); try done.
  destruct (IH Hx) as [l' ->]. by eexists.
Qed.

(** ** The invariant of the loop *)

Section Attempt.
Variable rng : nat -> nat.
Variable groups : list (list string).
Variable lastRun : list string.
Variable maxAttempts : nat.

Local Abbreviation loop_inv := (loop_inv groups lastRun).

Lemma loop_inv_initial k : loop_inv (initial_state groups k).
Proof.
  unfold loop_inv, initial_state. simpl. rewrite elements_empty. simpl.
  split_and!; [done|done|]. intros p Hp. set_solver.
Qed.

Lemma loop_inv_lockstep st :
  loop_inv st -> length (givers st) = length (getters st).
Proof.
  intros (Hg & Hr & _).
  apply Permutation_length in Hg, Hr.
  rewrite length_app, length_fmap in Hg, Hr. lia.
Qed.

Lemma iteration_inv st st' k :
  loop_inv st -> iteration rng lastRun maxAttempts st = (Continue st', k) ->
  loop_inv st'.
Proof.
  intros Hinv. unfold iteration.
  destruct (maxAttempts <? attempts st); [done|].
  destruct (RC rng (givers st) (drawn st)) as [[giver k1]|] eqn:Eg; [|done].
  destruct (RC rng (getters st) k1) as [[getter k2]|] eqn:Er; [|done].
  repeat case_bool_decide; simpl; try (intros [= <- _]; exact Hinv).
  destruct (list_remove giver (givers st)) as [givers'|] eqn:Rg; [|done].
  destruct (list_remove getter (getters st)) as [getters'|] eqn:Rr; [|done].
  intros [= <- _].
  destruct Hinv as (Hg & Hr & Hall).
  apply list_remove_Some in Rg, Rr.
  unfold loop_inv; simpl.
  assert (elements ({[(giver, getter)]} ∪ pairings st)
          ≡ₚ (giver, getter) :: elements (pairings st)) as Hel
    by by apply elements_union_singleton.
  split_and!.
  - rewrite Hel. simpl. rewrite <- Hg, Rg. by rewrite Permutation_middle.
  - rewrite Hel. simpl. rewrite <- Hr, Rr. by rewrite Permutation_middle.
  - intros p [->%elem_of_singleton|Hp]%elem_of_union.
    + unfold allowed; simpl. split_and!; try done.
      intros [[= -> ]%elem_of_singleton|?]%elem_of_union; done.
    + destruct (Hall p Hp) as (? & ? & ? & Hinvp).
      unfold allowed. split_and!; try done.
      intros [[= Hp2 Hp1]%elem_of_singleton|?]%elem_of_union; [|done].
      destruct p as [pg pr]; simpl in *; subst. done.
Qed.

Lemma passes_iteration st st' k :
  iteration rng lastRun maxAttempts st = (Continue st', k) ->
  S (passes maxAttempts st') <= passes maxAttempts st.
Proof.
  unfold iteration, passes.
  destruct (maxAttempts <? attempts st) eqn:Hlt; [done|].
  apply Nat.ltb_ge in Hlt.
  destruct (RC rng (givers st) (drawn st)) as [[giver k1]|] eqn:Eg; [|done].
  destruct (RC rng (getters st) k1) as [[getter k2]|] eqn:Er; [|done].
  repeat case_bool_decide; simpl; try (intros [= <- _]; simpl; lia).
  destruct (list_remove giver (givers st)) as [givers'|] eqn:Rg; [|done].
  destruct (list_remove getter (getters st)) as [getters'|] eqn:Rr; [|done].
  intros [= <- _]. simpl.
  apply list_remove_Some, Permutation_length in Rg. simpl in Rg. lia.
Qed.

(** A pass over a state that satisfies the invariant raises nothing. *)
Lemma iteration_no_raise st e k :
  loop_inv st -> givers st <> [] ->
  iteration rng lastRun maxAttempts st <> (Raise e, k).
Proof.
  intros Hinv Hne. unfold iteration.
  destruct (maxAttempts <? attempts st); [done|].
  destruct (RC_nonempty rng (givers st) (drawn st) Hne) as [giver Eg].
  rewrite Eg.
  assert (getters st <> []) as Hne'.
  { apply loop_inv_lockstep in Hinv. intros E. rewrite E in Hinv.
    destruct (givers st); simpl in *; done. }
  destruct (RC_nonempty rng (getters st) (S (drawn st)) Hne') as [getter Er].
  rewrite Er.
  apply RC_Some in Eg as [Hg _], Er as [Hr _].
  destruct (list_remove_elem_of _ _ Hg) as [givers' ->].
  destruct (list_remove_elem_of _ _ Hr) as [getters' ->].
  repeat case_bool_decide; simpl; done.
Qed.

Lemma while_givers_result fuel st :
  loop_inv st -> passes maxAttempts st <= fuel ->
  exists k,
    while_givers fuel rng lastRun maxAttempts st = (Stuck, k)
    \/ exists ps n,
         while_givers fuel rng lastRun maxAttempts st = (Completed ps n, k)
         /\ valid_MatchSet groups lastRun ps.
Proof.
  revert st. induction fuel as [|fuel IH]; intros st Hinv Hfuel.
  { unfold passes in Hfuel. lia. }
  simpl. destruct (givers st) as [|g gs] eqn:Eg.
  - pose proof (loop_inv_lockstep st Hinv) as Hlen. rewrite Eg in Hlen.
    destruct (getters st) as [|r rs] eqn:Er; [|done].
    exists (drawn st). right. exists (pairings st), (attempts st).
    split; [done|].
    destruct Hinv as (Hg & Hr & Hall). rewrite Eg, Er, !app_nil_r in *.
    split; [|done]. split_and!; [|done|done].
    apply Permutation_length in Hg. by rewrite length_fmap in Hg.
  - assert (givers st <> []) as Hne by by rewrite Eg.
    destruct (iteration rng lastRun maxAttempts st) as [[st'| |e] k] eqn:Eit.
    + apply IH; [by eapply iteration_inv|].
      apply passes_iteration in Eit. lia.
    + exists k. by left.
    + by apply iteration_no_raise in Eit.
Qed.

Lemma AttemptToGenPairings_result k :
  exists k',
    AttemptToGenPairings rng groups lastRun maxAttempts k = (Stuck, k')
    \/ exists ps n,
         AttemptToGenPairings rng groups lastRun maxAttempts k = (Completed ps n, k')
         /\ valid_MatchSet groups lastRun ps.
Proof. apply while_givers_result; [apply loop_inv_initial|done]. Qed.

Lemma AttemptToGenPairings_Completed k ps n k' :
  AttemptToGenPairings rng groups lastRun maxAttempts k = (Completed ps n, k') ->
  valid_MatchSet groups lastRun ps.
Proof.
  intros H. destruct (AttemptToGenPairings_result k) as [k'' [H'|(ps' & n' & H' & Hv)]];
    rewrite H in H'; by simplify_eq.
Qed.

(** *** The states the loop goes through *)

Lemma state_after_inv n st st' :
  loop_inv st -> state_after n rng lastRun maxAttempts st = Some st' -> loop_inv st'.
Proof.
  revert st. induction n as [|n IH]; simpl; intros st Hinv; [by intros [= <-]|].
  destruct (givers st); [done|].
  destruct (iteration rng lastRun maxAttempts st) as [[st1| |e] k] eqn:Eit; try done.
  apply IH. by eapply iteration_inv.
Qed.

Lemma state_after_passes n st st' :
  state_after n rng lastRun maxAttempts st = Some st' ->
  passes maxAttempts st' + n <= passes maxAttempts st.
Proof.
  revert st. induction n as [|n IH]; simpl; intros st; [intros [= <-]; lia|].
  destruct (givers st); [done|].
  destruct (iteration rng lastRun maxAttempts st) as [[st1| |e] k] eqn:Eit; try done.
  intros H%IH. apply passes_iteration in Eit. lia.
Qed.

Lemma state_after_while n fuel st st' :
  state_after n rng lastRun maxAttempts st = Some st' ->
  while_givers (n + fuel) rng lastRun maxAttempts st
  = while_givers fuel rng lastRun maxAttempts st'.
Proof.
  revert st. induction n as [|n IH]; simpl; intros st; [by intros [= <-]|].
  destruct (givers st); [done|].
  destruct (iteration rng lastRun maxAttempts st) as [[st1| |e] k] eqn:Eit; try done.
  apply IH.
Qed.

(** Once the counter has passed the bound with givers left, the call
    returns [None]. *)
Lemma state_after_stuck n k st :
  state_after n rng lastRun maxAttempts (initial_state groups k) = Some st ->
  givers st <> [] -> maxAttempts < attempts st ->
  AttemptToGenPairings rng groups lastRun maxAttempts k = (Stuck, drawn st).
Proof.
  intros Hn Hne Hlt. unfold AttemptToGenPairings.
  pose proof (state_after_passes _ _ _ Hn) as Hp.
  set (f := passes maxAttempts (initial_state groups k)) in *.
  assert (exists f', f = n + S f') as [f' ->].
  { exists (f - n - 1). unfold passes in Hp. lia. }
  rewrite (state_after_while _ _ _ _ Hn). simpl.
  destruct (givers st); [done|].
  unfold iteration. apply Nat.ltb_lt in Hlt. by rewrite Hlt.
Qed.

End Attempt.

(** ** What a returned set looks like *)

Lemma GenPairings_Return fuel rng groups lastRun k ps :
  GenPairings fuel rng groups lastRun k = Some (Return ps) ->
  valid_MatchSet groups lastRun ps.
Proof.
  revert k. induction fuel as [|fuel IH]; simpl; intros k; [done|].
  destruct (AttemptToGenPairings rng groups lastRun default_maxAttempts k)
    as [[| |ps' n|e|] k'] eqn:E; try done; try apply IH.
  intros [= ->]. by eapply AttemptToGenPairings_Completed.
Qed.

Lemma filter_fst_length (x : person) (l : list pairing) :
  length (filter (fun p => p.1 = x) l) = length (filter (fun y => y = x) (l.*1)).
Proof.
  induction l as [|p l IH]; [done|].
  rewrite fmap_cons, !filter_cons.
  destruct (decide _); simpl; auto.
Qed.

Lemma filter_snd_length (x : person) (l : list pairing) :
  length (filter (fun p => p.2 = x) l) = length (filter (fun y => y = x) (l.*2)).
Proof.
  induction l as [|p l IH]; [done|].
  rewrite fmap_cons, !filter_cons.
  destruct (decide _); simpl; auto.
Qed.

Lemma filter_eq_absent (x : person) (l : list person) :
  x ∉ l -> filter (fun y => y = x) l = [].
Proof.
  induction l as [|y l IH]; [done|].
  intros [Hne Hx]%not_elem_of_cons. rewrite filter_cons.
  rewrite decide_False by done. by apply IH.
Qed.

Lemma filter_eq_NoDup (x : person) (l : list person) :
  NoDup l -> x ∈ l -> length (filter (fun y => y = x) l) = 1.
Proof.
  induction 1 as [|y l Hy Hnd IH]; [by intros ?%elem_of_nil|].
  rewrite filter_cons. intros [->|Hx]%elem_of_cons.
  - rewrite decide_True by done. simpl. by rewrite filter_eq_absent.
  - rewrite decide_False by (intros ->; done). by apply IH.
Qed.

Lemma valid_as_often groups lastRun ps :
  valid_MatchSet groups lastRun ps -> as_often_as_listed groups ps.
Proof.
  intros [(_ & Hg & Hr) _] x. unfold gifts_from, gifts_to.
  rewrite filter_fst_length, filter_snd_length. by rewrite Hg, Hr.
Qed.

Lemma valid_exactly_once groups lastRun ps :
  valid_MatchSet groups lastRun ps -> NoDup (people groups) ->
  exactly_once groups ps.
Proof.
  intros Hv Hnd x Hx. destruct (valid_as_often _ _ _ Hv x) as [-> ->].
  by rewrite filter_eq_NoDup.
Qed.

(** ** Concrete runs *)

Example two_couples_run :
  AttemptToGenPairings two_couples_rng two_couples [] default_maxAttempts 0
  = (Completed two_couples_set 0, 8).
Proof. vm_compute. reflexivity. Qed.

Example twins_run :
  AttemptToGenPairings twins_rng twins [] default_maxAttempts 0
  = (Completed twins_set 0, 12).
Proof. vm_compute. reflexivity. Qed.

(** ** Claims on [AttemptToGenPairings] *)

(** C1, as stated, fails: when a group lists a name twice, the person built
    from it gives twice and gets twice in the returned set. *)
Lemma C1_listed_twice_gives_twice :
  AttemptToGenPairings twins_rng twins [] default_maxAttempts 0
  = (Completed twins_set 0, 12)
  /\ ("A", 0) ∈ people twins
  /\ length (gifts_from twins_set ("A", 0)) = 2
  /\ length (gifts_to twins_set ("A", 0)) = 2
  /\ ~ exactly_once twins twins_set.
Proof.
  split; [apply twins_run|].
  assert (("A", 0) ∈ people twins) as Hin by (vm_compute; apply list_elem_of_here).
  split; [exact Hin|].
  split; [vm_compute; reflexivity|].
  split; [vm_compute; reflexivity|].
  intros H. destruct (H ("A", 0) Hin) as [H1 _].
  vm_compute in H1. discriminate.
Qed.

(** C1, amended: whenever [AttemptToGenPairings] returns a set, and so
    whenever [GenPairings] returns, the size of the set is the number of
    people, and every person gives in as many pairings of the set, and gets
    in as many, as the groups list that person; so when no group lists a
    name twice, every person gives exactly once and gets exactly once. *)
Theorem C1_returned_set_is_bijection rng groups lastRun :
  (forall maxAttempts k ps n k',
     AttemptToGenPairings rng groups lastRun maxAttempts k = (Completed ps n, k') ->
     size ps = length (people groups)
     /\ as_often_as_listed groups ps
     /\ (NoDup (people groups) -> exactly_once groups ps))
  /\ (forall fuel k ps,
        GenPairings fuel rng groups lastRun k = Some (Return ps) ->
        size ps = length (people groups)
        /\ as_often_as_listed groups ps
        /\ (NoDup (people groups) -> exactly_once groups ps)).
Proof.
  assert (forall ps, valid_MatchSet groups lastRun ps ->
            size ps = length (people groups)
            /\ as_often_as_listed groups ps
            /\ (NoDup (people groups) -> exactly_once groups ps)) as Hv.
  { intros ps Hv. split_and!.
    - apply Hv.
    - by eapply valid_as_often.
    - by eapply valid_exactly_once. }
  split.
  - intros maxAttempts k ps n k' H. eapply Hv, AttemptToGenPairings_Completed, H.
  - intros fuel k ps H. eapply Hv, GenPairings_Return, H.
Qed.

Lemma C1_returned_set_is_bijection_witness :
  size two_couples_set = 4 /\ exactly_once two_couples two_couples_set.
Proof.
  destruct (C1_returned_set_is_bijection two_couples_rng two_couples []) as [H _].
  destruct (H default_maxAttempts 0 two_couples_set 0 8 two_couples_run)
    as (Hsize & _ & Hone).
  split; [exact Hsize|]. apply Hone.
  apply (bool_decide_unpack _). vm_compute. exact I.
Defined.

(** C2: every pairing of a set returned by [AttemptToGenPairings] has a
    giver other than its getter, from another group, a key that is not in
    the history, and no reverse pairing in the set. *)
Theorem C2_returned_pairings_allowed rng groups lastRun maxAttempts k ps n k' g r :
  AttemptToGenPairings rng groups lastRun maxAttempts k = (Completed ps n, k') ->
  (g, r) ∈ ps ->
  g <> r /\ g.2 <> r.2 /\ (PairingToString (g, r) ∉ lastRun) /\ ((r, g) ∉ ps).
Proof.
  intros H Hin. apply AttemptToGenPairings_Completed in H as [_ H].
  exact (H (g, r) Hin).
Qed.

Lemma C2_returned_pairings_allowed_witness :
  ("Alice", 0) <> ("Carol", 1) /\ 0 <> 1
  /\ (PairingToString (("Alice", 0), ("Carol", 1)) ∉ ["1carol-0alice"])
  /\ ((("Carol", 1), ("Alice", 0)) ∉ two_couples_set).
Proof.
  apply (C2_returned_pairings_allowed two_couples_rng two_couples ["1carol-0alice"]
           default_maxAttempts 0 two_couples_set 0 8).
  - vm_compute. reflexivity.
  - vm_compute. reflexivity.
Defined.

(** C4: for the groups [["Alice"], ["Bob"]] and the history
    ["0alice-1bob"], [AttemptToGenPairings] returns [None] whatever the
    random draws and the bound are. *)
Theorem C4_alice_bob_never_pair rng maxAttempts k :
  exists k',
    AttemptToGenPairings rng [["Alice"]; ["Bob"]] ["0alice-1bob"] maxAttempts k
    = (Stuck, k')
    /\ returned Stuck = Some None.
Proof.
  destruct (AttemptToGenPairings_result rng [["Alice"]; ["Bob"]] ["0alice-1bob"]
              maxAttempts k) as [k' [H|(ps & n & H & Hv)]]; [by exists k'|].
  exfalso. destruct Hv as [(_ & Hg & Hr) Hall].
  assert (("Alice", 0) ∈ (elements ps).*1) as Ha
    by (rewrite Hg; vm_compute; apply list_elem_of_here).
  apply list_elem_of_fmap in Ha as ([g r] & Hfst & Hp). simpl in Hfst. subst g.
  assert (r ∈ people [["Alice"]; ["Bob"]]) as Hrin.
  { rewrite <- Hr. apply list_elem_of_fmap. by exists (("Alice", 0), r). }
  apply elem_of_elements in Hp.
  destruct (Hall _ Hp) as (Hne & _ & Hkey & _). simpl in *.
  apply Hkey. unfold people in Hrin. simpl in Hrin.
  apply elem_of_cons in Hrin as [->|Hrin]; [done|].
  apply list_elem_of_singleton in Hrin as ->. vm_compute. apply list_elem_of_here.
Qed.

(** C5: once the counter of failed draws has passed [maxAttempts] while
    givers are left, [AttemptToGenPairings] returns [None]; and a set it
    returns is never partial: it has one pairing per person, and every
    person gives in it and gets in it. *)
Theorem C5_bound_gives_None_never_partial rng groups lastRun maxAttempts k :
  (forall n st,
     state_after n rng lastRun maxAttempts (initial_state groups k) = Some st ->
     givers st <> [] -> maxAttempts < attempts st ->
     exists k',
       AttemptToGenPairings rng groups lastRun maxAttempts k = (Stuck, k')
       /\ returned Stuck = Some None)
  /\ (forall ps n k',
        AttemptToGenPairings rng groups lastRun maxAttempts k = (Completed ps n, k') ->
        size ps = length (people groups)
        /\ forall x, x ∈ people groups ->
             (exists r, (x, r) ∈ ps) /\ (exists g, (g, x) ∈ ps)).
Proof.
  split.
  - intros n st Hn Hne Hlt. exists (drawn st). split; [|done].
    by eapply state_after_stuck.
  - intros ps n k' H.
    apply AttemptToGenPairings_Completed in H as [(Hsize & Hg & Hr) _].
    split; [done|]. intros x Hx. split.
    + rewrite <- Hg in Hx. apply list_elem_of_fmap in Hx as ([g r] & -> & Hp).
      exists r. by apply elem_of_elements.
    + rewrite <- Hr in Hx. apply list_elem_of_fmap in Hx as ([g r] & -> & Hp).
      exists g. by apply elem_of_elements.
Qed.

Lemma C5_bound_gives_None_never_partial_witness :
  exists k',
    AttemptToGenPairings zeros [["Alice"]; ["Bob"]] ["0alice-1bob"] 2 0 = (Stuck, k').
Proof.
  destruct (C5_bound_gives_None_never_partial zeros [["Alice"]; ["Bob"]]
              ["0alice-1bob"] 2 0) as [H _].
  destruct (H 3 (LoopState [("Alice", 0); ("Bob", 1)] [("Alice", 0); ("Bob", 1)] ∅ 3 6))
    as (k' & Hk & _).
  - vm_compute. reflexivity.
  - discriminate.
  - simpl. lia.
  - by exists k'.
Defined.

(** C6: the two pools always have the same length, so when the loop ends
    with no giver left no getter is left either, and the branch for
    leftover getters is never taken. *)
Theorem C6_pools_in_lockstep rng groups lastRun maxAttempts k :
  (forall n st,
     state_after n rng lastRun maxAttempts (initial_state groups k) = Some st ->
     length (givers st) = length (getters st)
     /\ (givers st = [] -> getters st = []))
  /\ (forall left k',
        AttemptToGenPairings rng groups lastRun maxAttempts k <> (Leftover left, k')).
Proof.
  split.
  - intros n st Hn.
    assert (length (givers st) = length (getters st)) as Hlen.
    { eapply loop_inv_lockstep, state_after_inv, Hn. apply loop_inv_initial. }
    split; [done|]. intros E. rewrite E in Hlen. by destruct (getters st).
  - intros left k' H.
    destruct (AttemptToGenPairings_result rng groups lastRun maxAttempts k)
      as [k'' [H'|(ps & n & H' & _)]]; rewrite H in H'; done.
Qed.

Lemma C6_pools_in_lockstep_witness :
  state_after 4 two_couples_rng [] default_maxAttempts (initial_state two_couples 0)
  = Some (LoopState [] [] two_couples_set 0 8)
  /\ getters (LoopState [] [] two_couples_set 0 8) = [].
Proof.
  assert (state_after 4 two_couples_rng [] default_maxAttempts
            (initial_state two_couples 0)
          = Some (LoopState [] [] two_couples_set 0 8)) as Hst
    by (vm_compute; reflexivity).
  split; [exact Hst|].
  destruct (C6_pools_in_lockstep two_couples_rng two_couples [] default_maxAttempts 0)
    as [H _].
  destruct (H 4 _ Hst) as [_ Hempty]. apply Hempty. reflexivity.
Defined.

(** ** Draws that make an attempt succeed *)

Lemma index_of_lookup x l : x ∈ l -> l !! index_of x l = Some x.
Proof.
  induction l as [|y l IH]; simpl; [by intros ?%elem_of_nil|].
  intros Hx. destruct (decide (x = y)) as [->|Hne]; [done|].
  apply elem_of_cons in Hx as [?|Hx]; [done|]. by apply IH.
Qed.

Lemma RC_index_of rng l k x :
  x ∈ l -> rng k = index_of x l -> RC rng l k = Some (x, S k).
Proof.
  intros Hx Hk. pose proof (index_of_lookup x l Hx) as Hl.
  unfold RC. destruct l as [|y l]; [by apply elem_of_nil in Hx|].
  rewrite Hk, Nat.mod_small by by eapply lookup_lt_Some.
  by rewrite Hl.
Qed.

Section Replay.
Variable lastRun : list string.
Variable maxAttempts : nat.

Lemma iteration_accept rng st g r :
  attempts st <= maxAttempts ->
  g ∈ givers st -> r ∈ getters st ->
  rng (drawn st) = index_of g (givers st) ->
  rng (S (drawn st)) = index_of r (getters st) ->
  g <> r -> g.2 <> r.2 -> PairingToString (g, r) ∉ lastRun ->
  (g, r) ∉ pairings st -> (r, g) ∉ pairings st ->
  exists givers' getters',
    list_remove g (givers st) = Some givers'
    /\ list_remove r (getters st) = Some getters'
    /\ iteration rng lastRun maxAttempts st
       = (Continue (LoopState givers' getters' ({[(g, r)]} ∪ pairings st)
                              (attempts st) (S (S (drawn st)))),
          S (S (drawn st))).
Proof.
  intros Hatt Hg Hr Hkg Hkr Hne Hgrp Hkey Hp Hinv.
  destruct (list_remove_elem_of _ _ Hg) as [givers' Rg].
  destruct (list_remove_elem_of _ _ Hr) as [getters' Rr].
  exists givers', getters'. split_and!; [done|done|].
  unfold iteration.
  apply Nat.ltb_ge in Hatt. rewrite Hatt.
  rewrite (RC_index_of rng _ _ g Hg Hkg), (RC_index_of rng _ _ r Hr Hkr).
  rewrite !bool_decide_eq_false_2 by done. simpl. by rewrite Rg, Rr.
Qed.

Lemma while_givers_replay M :
  forall fuel rng st,
    NoDup M ->
    M.*1 ≡ₚ givers st -> M.*2 ≡ₚ getters st ->
    (forall p, p ∈ M ->
       allowed lastRun (pairings st) p /\ (p ∉ pairings st) /\ ((p.2, p.1) ∉ M)) ->
    (forall i d, draws_for M (givers st) (getters st) !! i = Some d ->
                 rng (drawn st + i) = d) ->
    attempts st <= maxAttempts ->
    length M < fuel ->
    while_givers fuel rng lastRun maxAttempts st
    = (Completed (list_to_set M ∪ pairings st) (attempts st),
       drawn st + 2 * length M).
Proof.
  induction M as [|[g r] M IH]; intros fuel rng st Hnd Hg Hr Hall Hrng Hatt Hfuel.
  - apply Permutation_nil_l in Hg, Hr.
    destruct fuel as [|fuel]; [simpl in Hfuel; lia|]. simpl.
    rewrite <- Hg, <- Hr. simpl. rewrite (left_id_L ∅ (∪)). do 2 f_equal. lia.
  - destruct fuel as [|fuel]; [lia|]. simpl in Hfuel.
    assert (g ∈ givers st) as Hgin by (rewrite <- Hg; apply list_elem_of_here).
    assert (r ∈ getters st) as Hrin by (rewrite <- Hr; apply list_elem_of_here).
    destruct (Hall (g, r)) as ((Hne & Hgrp & Hkey & Hinv) & Hfresh & Hinv');
      [apply list_elem_of_here|]. simpl in *.
    destruct (iteration_accept rng st g r) as (givers' & getters' & Rg & Rr & Hit);
      try done.
    { rewrite <- (Hrng 0 (index_of g (givers st))); [f_equal; lia|done]. }
    { rewrite <- (Hrng 1 (index_of r (getters st))); [f_equal; lia|done]. }
    simpl. destruct (givers st) as [|g0 gs] eqn:Egs; [by apply elem_of_nil in Hgin|].
    rewrite <- Egs in *. rewrite Hit.
    apply NoDup_cons in Hnd as [Hnotin Hnd].
    rewrite IH; simpl; try done.
    + f_equal; [|lia]. f_equal.
      by rewrite (comm_L (∪) {[(g, r)]} (list_to_set M)), <- (assoc_L (∪)).
    + apply list_remove_Some in Rg. rewrite Rg in Hg.
      by apply Permutation_cons_inv in Hg.
    + apply list_remove_Some in Rr. rewrite Rr in Hr.
      by apply Permutation_cons_inv in Hr.
    + intros p Hp.
      destruct (Hall p) as ((? & ? & ? & Hpi) & Hpf & Hpm); [by apply list_elem_of_further|].
      split_and!.
      * unfold allowed. split_and!; try done.
        intros [[= Hp2 Hp1]%elem_of_singleton|?]%elem_of_union; [|done].
        apply Hinv'. apply list_elem_of_further. destruct p as [pg pr]; simpl in *.
        by subst.
      * intros [->%elem_of_singleton|?]%elem_of_union; done.
      * intros Hq. apply Hpm. by apply list_elem_of_further.
    + intros i d Hi. rewrite Rg, Rr in Hrng. simpl in Hrng.
      rewrite <- (Hrng (S (S i)) d Hi). f_equal. lia.
    + lia.
Qed.

End Replay.

Lemma AttemptToGenPairings_replay groups lastRun maxAttempts ps :
  valid_MatchSet groups lastRun ps ->
  AttemptToGenPairings
    (replay (draws_for (elements ps) (people groups) (people groups)))
    groups lastRun maxAttempts 0
  = (Completed ps 0, 2 * size ps).
Proof.
  intros [(Hsize & Hg & Hr) Hall]. unfold AttemptToGenPairings.
  rewrite (while_givers_replay lastRun maxAttempts (elements ps)).
  - simpl. by rewrite (right_id_L ∅ (∪)), list_to_set_elements_L.
  - apply NoDup_elements.
  - done.
  - done.
  - intros p Hp%elem_of_elements. destruct (Hall p Hp) as (? & ? & ? & Hinv).
    split_and!; [by split_and!; try done; set_solver|set_solver|].
    by rewrite elem_of_elements.
  - intros i d Hi. exact (f_equal (default 0) Hi).
  - simpl. lia.
  - unfold passes, initial_state. simpl.
    apply Permutation_length in Hg. rewrite length_fmap in Hg. lia.
Qed.

(** ** Claims on [GenPairings] *)

Lemma NoDup_snd_inj (l : list pairing) p q :
  NoDup (l.*2) -> p ∈ l -> q ∈ l -> p.2 = q.2 -> p = q.
Proof.
  induction l as [|a l IH]; [by intros _ ?%elem_of_nil|].
  rewrite fmap_cons. intros [Ha Hnd]%NoDup_cons Hp Hq Heq.
  apply elem_of_cons in Hp as [->|Hp], Hq as [->|Hq]; [done| | |by apply IH].
  - exfalso. apply Ha. rewrite Heq. apply list_elem_of_fmap. by exists q.
  - exfalso. apply Ha. rewrite <- Heq. apply list_elem_of_fmap. by exists p.
Qed.

(** Three people of one group cannot all give to the one person outside. *)
Lemma three_and_one_infeasible ps : ~ valid_MatchSet three_and_one [] ps.
Proof.
  intros [(_ & Hg & Hr) Hall].
  assert (NoDup ((elements ps).*2)) as Hnd.
  { rewrite Hr. apply (bool_decide_unpack _). vm_compute. exact I. }
  assert (forall x, x ∈ [("A", 0); ("B", 0); ("C", 0)] -> (x, ("D", 1)) ∈ elements ps)
    as Hto.
  { intros x Hx.
    assert (x ∈ (elements ps).*1) as Hin.
    { rewrite Hg. change (x ∈ [("A", 0); ("B", 0); ("C", 0)] ++ [("D", 1)]).
      apply elem_of_app. by left. }
    apply list_elem_of_fmap in Hin as ([g r] & -> & Hp). simpl in *.
    assert (r ∈ people three_and_one) as Hrin.
    { rewrite <- Hr. apply list_elem_of_fmap. by exists (g, r). }
    destruct (Hall (g, r)) as (_ & Hgrp & _); [by apply elem_of_elements|].
    simpl in Hgrp. unfold three_and_one, people in Hrin. simpl in Hrin.
    assert (g.2 = 0) as Hg0.
    { repeat (apply elem_of_cons in Hx as [->|Hx]; [done|]).
      by apply elem_of_nil in Hx. }
    repeat (apply elem_of_cons in Hrin as [->|Hrin]; [by rewrite ?Hg0 in Hgrp|]).
    by apply elem_of_nil in Hrin. }
  assert ((("A", 0), ("D", 1)) = ((("B", 0), ("D", 1)) : pairing)) as Heq; [|done].
  apply (NoDup_snd_inj (elements ps)); [done| | |done]; apply Hto.
  - apply list_elem_of_here.
  - apply list_elem_of_further, list_elem_of_here.
Qed.

(** C3, as stated, fails: two groups, of three people and of one, meet the
    conditions of the claim, and with an empty history [GenPairings] comes
    back for no random draws, however long it runs. *)
Lemma C3_three_and_one_never_returns :
  length three_and_one = 2
  /\ Forall (fun names => 1 <= length names) three_and_one
  /\ length (people three_and_one) = 4
  /\ forall rng fuel k, GenPairings fuel rng three_and_one [] k = None.
Proof.
  split_and!; [done|repeat constructor|done|].
  intros rng fuel. induction fuel as [|fuel IH]; intros k; [done|]. simpl.
  destruct (AttemptToGenPairings_result rng three_and_one [] default_maxAttempts k)
    as [k' [->|(ps & n & _ & Hv)]]; [apply IH|].
  by apply three_and_one_infeasible in Hv.
Qed.

Lemma covered_by_exactly_once groups ps :
  NoDup (people groups) -> size ps = length (people groups) ->
  exactly_once groups ps -> covers_people groups ps.
Proof.
  intros Hnd Hsize Honce. split; [done|].
  assert (forall (l : list person),
            length l = length (people groups) ->
            (forall x, x ∈ people groups -> length (filter (fun y => y = x) l) = 1) ->
            l ≡ₚ people groups) as Hperm.
  { intros l Hlen Hcount. symmetry.
    apply submseteq_length_Permutation; [|lia].
    apply NoDup_submseteq; [done|]. intros x Hx. specialize (Hcount x Hx).
    destruct (filter (fun y => y = x) l) as [|y t] eqn:E; [done|].
    assert (y ∈ filter (fun y => y = x) l) as Hy by (rewrite E; apply list_elem_of_here).
    apply list_elem_of_filter in Hy as [-> Hy]. done. }
  split; apply Hperm.
  - by rewrite length_fmap.
  - intros x Hx. destruct (Honce x Hx) as [H _].
    unfold gifts_from in H. by rewrite filter_fst_length in H.
  - by rewrite length_fmap.
  - intros x Hx. destruct (Honce x Hx) as [_ H].
    unfold gifts_to in H. by rewrite filter_snd_length in H.
Qed.

(** When no group lists a name twice, the invariants as the specification
    words them say the same as the invariants with multiplicity. *)
Lemma invariants_1_to_6_valid groups lastRun ps :
  NoDup (people groups) ->
  invariants_1_to_6 groups lastRun ps <-> valid_MatchSet groups lastRun ps.
Proof.
  intros Hnd. split.
  - intros (Hsize & Honce & Hall). split; [|done].
    by apply covered_by_exactly_once.
  - intros Hv. split_and!; [apply Hv|by eapply valid_exactly_once|apply Hv].
Qed.

(** C3, amended: for every input and every sequence of random draws, what
    [GenPairings] returns satisfies invariants 1 and 3 to 6 and has every
    person as giver and as getter as often as the groups list that person,
    hence invariants 1 to 6 when no group lists a name twice; and for every
    input for which a set with these properties exists (when no group
    lists a name twice: a MatchSet satisfying invariants 1 to 6),
    [GenPairings] terminates for some sequence of random draws and returns
    such a set. *)
Theorem C3_GenPairings_returns_when_feasible groups lastRun :
  (forall rng fuel k ps,
     GenPairings fuel rng groups lastRun k = Some (Return ps) ->
     valid_MatchSet groups lastRun ps
     /\ (NoDup (people groups) -> invariants_1_to_6 groups lastRun ps))
  /\ ((exists M, valid_MatchSet groups lastRun M) ->
      exists rng fuel ps,
        GenPairings fuel rng groups lastRun 0 = Some (Return ps)
        /\ valid_MatchSet groups lastRun ps)
  /\ (NoDup (people groups) ->
      (exists M, invariants_1_to_6 groups lastRun M) ->
      exists rng fuel ps,
        GenPairings fuel rng groups lastRun 0 = Some (Return ps)
        /\ invariants_1_to_6 groups lastRun ps).
Proof.
  assert (forall M, valid_MatchSet groups lastRun M ->
            GenPairings 1
              (replay (draws_for (elements M) (people groups) (people groups)))
              groups lastRun 0 = Some (Return M)) as Hrun.
  { intros M HM. simpl.
    by rewrite (AttemptToGenPairings_replay groups lastRun default_maxAttempts M HM). }
  split_and!.
  - intros rng fuel k ps H. apply GenPairings_Return in H.
    split; [done|]. intros Hnd. by apply invariants_1_to_6_valid.
  - intros [M HM]. eexists _, 1, M. split; [by apply Hrun|done].
  - intros Hnd [M HM]. eexists _, 1, M. split; [|done].
    apply Hrun. by apply invariants_1_to_6_valid.
Qed.

(** Some draws never succeed: a source that always yields zero picks the
    first person of both pools, who cannot give to themself. *)
Lemma while_givers_zeros lastRun maxAttempts fuel st p gs rs :
  givers st = p :: gs -> getters st = p :: rs ->
  passes maxAttempts st <= fuel ->
  exists k, while_givers fuel zeros lastRun maxAttempts st = (Stuck, k).
Proof.
  revert st. induction fuel as [|fuel IH]; intros st Hg Hr Hfuel.
  { unfold passes in Hfuel. lia. }
  simpl. rewrite Hg. unfold iteration.
  destruct (maxAttempts <? attempts st) eqn:Hlt; [by eexists|].
  apply Nat.ltb_ge in Hlt.
  rewrite Hg, Hr. unfold RC, zeros. rewrite !Nat.Div0.mod_0_l. simpl.
  rewrite bool_decide_eq_true_2 by done.
  apply IH; simpl; [done|done|].
  unfold passes in *. simpl. rewrite Hg in Hfuel. simpl in Hfuel. lia.
Qed.

Lemma GenPairings_zeros groups lastRun fuel k :
  people groups <> [] -> GenPairings fuel zeros groups lastRun k = None.
Proof.
  intros Hne. revert k. induction fuel as [|fuel IH]; intros k; [done|]. simpl.
  destruct (people groups) as [|p l] eqn:E; [done|].
  destruct (while_givers_zeros lastRun default_maxAttempts
              (passes default_maxAttempts (initial_state groups k))
              (initial_state groups k) p l l) as [k' Hk'];
    [by simpl; rewrite E|by simpl; rewrite E|done|].
  unfold AttemptToGenPairings. rewrite Hk'. apply IH.
Qed.

Lemma two_couples_valid : valid_MatchSet two_couples [] two_couples_set.
Proof. eapply AttemptToGenPairings_Completed, two_couples_run. Qed.

Lemma C3_GenPairings_returns_when_feasible_witness :
  exists rng fuel ps,
    GenPairings fuel rng two_couples [] 0 = Some (Return ps)
    /\ invariants_1_to_6 two_couples [] ps.
Proof.
  destruct (C3_GenPairings_returns_when_feasible two_couples []) as (_ & _ & H).
  assert (NoDup (people two_couples)) as Hnd
    by (apply (bool_decide_unpack _); vm_compute; exact I).
  apply (H Hnd). exists two_couples_set.
  apply (invariants_1_to_6_valid _ _ _ Hnd), two_couples_valid.
Defined.

(** ** Splitting and joining the history *)

Lemma split_colons_cons c rest :
  split_colons (String c rest)
  = match rest with
    | String c2 rest2 =>
        if is_colon c && is_colon c2
        then EmptyString :: split_colons rest2
        else push_front c (split_colons rest)
    | EmptyString => [String c EmptyString]
    end.
Proof. by destruct rest. Qed.

Lemma colon_free_cons c rest :
  colon_free (String c rest) = true ->
  colon_free rest = true
  /\ match rest with
     | String c2 _ => is_colon c && is_colon c2 = false
     | EmptyString => is_colon c = false
     end.
Proof.
  simpl. destruct rest as [|c2 rest].
  - intros H%negb_true_iff. done.
  - intros [H1%negb_true_iff H2]%andb_true_iff. done.
Qed.

Lemma split_colons_one k : colon_free k = true -> split_colons k = [k].
Proof.
  induction k as [|c k IH]; [done|].
  intros [Hk Hc]%colon_free_cons. rewrite split_colons_cons.
  destruct k as [|c2 k]; [done|]. by rewrite Hc, (IH Hk).
Qed.

Lemma split_colons_sep k s :
  colon_free k = true ->
  split_colons (k +:+ "::" +:+ s) = k :: split_colons s.
Proof.
  induction k as [|c k IH]; [done|].
  intros [Hk Hc]%colon_free_cons.
  change (String c k +:+ "::" +:+ s) with (String c (k +:+ "::" +:+ s)).
  rewrite split_colons_cons. destruct k as [|c2 k].
  - change (EmptyString +:+ "::" +:+ s) with (String ":" (String ":" s)) in *.
    by rewrite Hc.
  - change (String c2 k +:+ "::" +:+ s) with (String c2 (k +:+ "::" +:+ s)) in *.
    cbv iota. by rewrite Hc, (IH Hk).
Qed.

Lemma join_cons sep k k' ks :
  join sep (k :: k' :: ks) = k +:+ sep +:+ join sep (k' :: ks).
Proof. done. Qed.

Lemma split_colons_join ks :
  Forall (fun k => colon_free k = true) ks -> ks <> [] ->
  split_colons (join "::" ks) = ks.
Proof.
  induction 1 as [|k ks Hk Hks IH]; [done|]. intros _.
  destruct ks as [|k' ks]; [by apply split_colons_one|].
  by rewrite join_cons, split_colons_sep, IH.
Qed.

Lemma append_assoc (a b c : string) : (a +:+ b) +:+ c = a +:+ b +:+ c.
Proof.
  induction a as [|x a IH]; [done|].
  change (String x ((a +:+ b) +:+ c) = String x (a +:+ b +:+ c)). by f_equal.
Qed.

Lemma join_last sep ks k :
  last ks = Some k -> exists a, join sep ks = a +:+ k.
Proof.
  induction ks as [|k0 ks IH]; [done|].
  destruct ks as [|k' ks].
  - intros [= ->]. by exists EmptyString.
  - intros H. destruct (IH H) as [a Ha]. exists (k0 +:+ sep +:+ a).
    rewrite join_cons, Ha. by rewrite !append_assoc.
Qed.

Lemma rstrip_app a b :
  rstrip b = b -> b <> EmptyString -> rstrip (a +:+ b) = a +:+ b.
Proof.
  intros Hb Hne. induction a as [|c a IH]; [done|].
  change (String c a +:+ b) with (String c (a +:+ b)).
  simpl. rewrite IH. destruct (a +:+ b) eqn:E; [|done].
  destruct a; [by destruct Hne|discriminate E].
Qed.

Lemma fmt_d_head n :
  exists d rest, fmt_d n = String d rest /\ is_space d = false.
Proof.
  unfold fmt_d. destruct (Nat.to_uint n); simpl; by eexists _, _.
Qed.

Lemma PairingToString_head p :
  exists d rest, PairingToString p = String d rest /\ is_space d = false.
Proof.
  destruct p as [[gn gg] [rn rg]]. unfold PairingToString.
  destruct (fmt_d_head gg) as (d & rest & -> & Hd). simpl. by eexists _, _.
Qed.

(** What [LoadGroups] reads back from a joined list of keys. *)
Lemma LoadGroups_join groups ks :
  Forall (fun k => colon_free k = true) ks ->
  Forall (fun k => exists d rest, k = String d rest /\ is_space d = false) ks ->
  (forall k, last ks = Some k -> tight_end k) ->
  (LoadGroups (Config groups (Some (join "::" ks)))).2 = ks.
Proof.
  intros Hfree Hhead Hlast. unfold LoadGroups. simpl.
  destruct ks as [|k0 ks]; [done|].
  assert (exists d rest', join "::" (k0 :: ks) = String d rest' /\ is_space d = false)
    as (d & rest' & Hj & Hd).
  { apply Forall_cons in Hhead as [(d & rest & -> & Hd) _]. exists d.
    destruct ks as [|k1 ks]; [by exists rest|].
    by exists (rest +:+ "::" +:+ join "::" (k1 :: ks)). }
  assert (strip (join "::" (k0 :: ks)) = join "::" (k0 :: ks)) as ->.
  { destruct (last (k0 :: ks)) as [k|] eqn:El; [|by apply last_None in El].
    destruct (join_last "::" _ _ El) as [a Ha]. unfold strip.
    assert (k <> EmptyString) as Hk.
    { apply last_Some_elem_of in El.
      rewrite Forall_forall in Hhead.
      by destruct (Hhead k El) as (? & ? & -> & _). }
    rewrite Ha, rstrip_app; [|by apply Hlast|done].
    rewrite <- Ha, Hj. simpl. by rewrite Hd. }
  rewrite Hj, <- Hj. by apply split_colons_join.
Qed.

(** ** Claims on the history format *)

Lemma sorted_Permutation ps : sorted ps ≡ₚ elements ps.
Proof. apply merge_sort_Permutation. Qed.

Lemma keys_of_sorted ps :
  list_to_set (map PairingToString (sorted ps))
  = (set_map PairingToString ps : gset string).
Proof.
  unfold set_map. apply leibniz_equiv. intros k.
  rewrite !elem_of_list_to_set. change map with (@fmap list _) at 1.
  by rewrite (sorted_Permutation ps).
Qed.

(** C7, as stated, fails: a name that holds the delimiter gives a key that
    the split cuts in two. *)
Lemma C7_delimiter_in_name :
  (FormatPairings [] colon_name_set).2 = "0a::b-1c"
  /\ (LoadGroups (Config [] (Some (FormatPairings [] colon_name_set).2))).2
     = ["0a"; "b-1c"]
  /\ (set_map PairingToString colon_name_set : gset string) = {[ "0a::b-1c" ]}
  /\ list_to_set (LoadGroups (Config [] (Some (FormatPairings [] colon_name_set).2))).2
     <> (set_map PairingToString colon_name_set : gset string).
Proof.
  split_and!; [by vm_compute|by vm_compute|by vm_compute|].
  apply (bool_decide_eq_false _). by vm_compute.
Qed.

(** C7, amended: for every pairing set none of whose keys holds the
    delimiter or ends with a colon, and whose last key in sorted order does
    not end with whitespace, splitting the history string that
    [FormatPairings] produces, as [LoadGroups] does, yields the keys of the
    pairings in sorted order, and so exactly the set of the keys. *)
Theorem C7_history_round_trip groups ps :
  Forall (fun k => colon_free k = true) (map PairingToString (sorted ps)) ->
  (forall k, last (map PairingToString (sorted ps)) = Some k -> tight_end k) ->
  (LoadGroups (Config groups (Some (FormatPairings groups ps).2))).2
  = map PairingToString (sorted ps)
  /\ list_to_set (LoadGroups (Config groups (Some (FormatPairings groups ps).2))).2
     = (set_map PairingToString ps : gset string).
Proof.
  intros Hfree Hlast.
  assert ((LoadGroups (Config groups (Some (FormatPairings groups ps).2))).2
          = map PairingToString (sorted ps)) as Heq.
  { unfold FormatPairings. cbn [snd]. apply LoadGroups_join; [done| |done].
    apply Forall_forall. intros k Hk.
    apply list_elem_of_fmap in Hk as (p & -> & _). apply PairingToString_head. }
  split; [done|]. rewrite Heq. apply keys_of_sorted.
Qed.

Lemma C7_history_round_trip_witness :
  (LoadGroups (Config two_couples (Some (FormatPairings two_couples two_couples_set).2))).2
  = map PairingToString (sorted two_couples_set).
Proof.
  apply (C7_history_round_trip two_couples two_couples_set).
  - apply (bool_decide_unpack _). vm_compute. exact I.
  - vm_compute. intros k [= <-]. reflexivity.
Defined.

(** ** The listing *)

Lemma tuple_compare_order {A B : Type} (cmpA : A -> A -> comparison)
    (cmpB : B -> B -> comparison) :
  order_compare cmpA -> order_compare cmpB ->
  order_compare (tuple_compare cmpA cmpB).
Proof.
  intros [eqA antiA transA] [eqB antiB transB]. split; unfold tuple_compare.
  - intros [a1 b1] [a2 b2]; simpl.
    destruct (cmpA a1 a2) eqn:Ea.
    + apply eqA in Ea as ->. rewrite eqB. split; [by intros ->|by intros [= ->]].
    + split; [done|]. intros [= -> ->].
      assert (cmpA a2 a2 = Eq) as E by by apply eqA. congruence.
    + split; [done|]. intros [= -> ->].
      assert (cmpA a2 a2 = Eq) as E by by apply eqA. congruence.
  - intros [a1 b1] [a2 b2]; simpl.
    rewrite (antiA a1 a2), (antiB b1 b2). by destruct (cmpA a1 a2).
  - intros [a1 b1] [a2 b2] [a3 b3]; simpl.
    destruct (cmpA a1 a2) eqn:E12; [| |done].
    + apply eqA in E12 as ->.
      destruct (cmpA a2 a3); [apply transB|done|done].
    + intros _. destruct (cmpA a2 a3) eqn:E23; [| |done].
      * apply eqA in E23 as <-. by rewrite E12.
      * intros _. by rewrite (transA _ _ _ E12 E23).
Qed.

Lemma nat_compare_order : order_compare Nat.compare.
Proof.
  split.
  - apply Nat.compare_eq_iff.
  - intros x y. apply Nat.compare_antisym.
  - intros x y z. rewrite !Nat.compare_lt_iff. lia.
Qed.

Lemma string_compare_order : order_compare String.compare.
Proof.
  split.
  - intros x y. split; [apply String.compare_eq_iff|intros ->].
    pose proof (String.compare_antisym y y) as H.
    by destruct (String.compare y y).
  - intros x y. apply String.compare_antisym.
  - intros x y z Hxy Hyz.
    assert (String.le x z) as Hle.
    { transitivity y; unfold String.le, String.leb; [by rewrite Hxy|by rewrite Hyz]. }
    unfold String.le, String.leb in Hle.
    destruct (String.compare x z) eqn:Hxz; [|done|done].
    apply String.compare_eq_iff in Hxz as ->.
    rewrite (String.compare_antisym z y), Hyz in Hxy. discriminate.
Qed.

Lemma pairing_compare_order : order_compare pairing_compare.
Proof.
  apply tuple_compare_order; apply tuple_compare_order;
    auto using string_compare_order, nat_compare_order.
Qed.

#[global] Instance pairing_le_total : Total pairing_le.
Proof.
  intros p q. unfold pairing_le.
  rewrite (cmp_antisym _ pairing_compare_order p q).
  destruct (pairing_compare p q); simpl; auto.
Qed.

#[global] Instance pairing_le_trans : Transitive pairing_le.
Proof.
  destruct pairing_compare_order as [Heq Hanti Htrans].
  intros p q r. unfold pairing_le.
  destruct (pairing_compare p q) eqn:Epq; [| |done]; intros _.
  - by apply Heq in Epq as ->.
  - destruct (pairing_compare q r) eqn:Eqr; [| |done]; intros _.
    + apply Heq in Eqr as <-. by rewrite Epq.
    + by rewrite (Htrans _ _ _ Epq Eqr).
Qed.

#[global] Instance pairing_le_antisym : AntiSymm (=) pairing_le.
Proof.
  destruct pairing_compare_order as [Heq Hanti _].
  intros p q. unfold pairing_le. rewrite (Hanti p q).
  destruct (pairing_compare p q) eqn:E; simpl; [|done|done].
  intros _ _. by apply Heq.
Qed.

Lemma sorted_Sorted ps : Sorted pairing_le (sorted ps).
Proof. apply (Sorted_merge_sort pairing_le). Qed.

(** [sorted ps] is the only way to put the pairings of [ps] in order, so it
    is the list that any sorting procedure returns. *)
Lemma sorted_unique ps l :
  l ≡ₚ elements ps -> Sorted pairing_le l -> l = sorted ps.
Proof.
  intros Hperm Hsorted. apply (Sorted_unique pairing_le); [done|apply sorted_Sorted|].
  by rewrite Hperm, sorted_Permutation.
Qed.

Lemma sorted_length ps : length (sorted ps) = size ps.
Proof. by rewrite (sorted_Permutation ps). Qed.

Lemma seen_twice_spec knownNames names :
  seen_twice knownNames names = true <->
  (exists i a, names !! i = Some a /\ strip (lower a) ∈ knownNames)
  \/ (exists i j a b, i < j /\ names !! i = Some a /\ names !! j = Some b
        /\ strip (lower a) = strip (lower b)).
Proof.
  revert knownNames. induction names as [|name rest IH]; intros known; simpl.
  { split; [done|]. intros [(i & a & H & _)|(i & j & a & b & _ & H & _)]; done. }
  case_bool_decide as Hin.
  { split; [|done]. intros _. left. by exists 0, name. }
  rewrite IH. split.
  - intros [(i & a & Hi & Ha)|(i & j & a & b & Hij & Hi & Hj & Hab)].
    + apply elem_of_union in Ha as [Ha%elem_of_singleton|Ha].
      * right. exists 0, (S i), name, a. split_and!; [lia|done|done|done].
      * left. by exists (S i), a.
    + right. exists (S i), (S j), a, b. split_and!; [lia|done|done|done].
  - intros [(i & a & Hi & Ha)|(i & j & a & b & Hij & Hi & Hj & Hab)].
    + destruct i as [|i]; simpl in Hi; [by simplify_eq|].
      left. exists i, a. split; [done|]. apply elem_of_union. by right.
    + destruct j as [|j]; [lia|]. simpl in Hj. destruct i as [|i]; simpl in Hi.
      * simplify_eq. left. exists j, b. split; [done|].
        apply elem_of_union. left. by apply elem_of_singleton.
      * right. exists i, j, a, b. split_and!; [lia|done|done|done].
Qed.

Lemma HaveDuplicateNames_spec groups :
  HaveDuplicateNames groups = true <->
  share_name (fun s => strip (lower s)) groups.
Proof.
  unfold HaveDuplicateNames, share_name. rewrite seen_twice_spec. split.
  - intros [(i & a & _ & Ha)|H]; [by apply not_elem_of_empty in Ha|done].
  - intros H. by right.
Qed.

Example two_couples_listing :
  FormatPairings two_couples two_couples_set
  = (join nl ["Alice gives to Carol"; "Bob gives to Dave";
              "Carol gives to Bob"; "Dave gives to Alice"],
     "0alice-1carol::0bob-1dave::1carol-0bob::1dave-0alice").
Proof. vm_compute. reflexivity. Qed.

(** C9, as stated, fails: [" Al"] and ["al"] are not the same name up to
    letter case, yet the listing shows the groups, because the source also
    trims the names it compares. *)
Lemma C9_trimmed_names_count_as_equal :
  ~ share_name lower spaced_groups
  /\ (FormatPairings spaced_groups spaced_set).1
     = join nl [" Al (0) gives to al (1)"; "Bob (0) gives to Dave (1)";
                "Dave (1) gives to  Al (0)"; "al (1) gives to Bob (0)"].
Proof.
  split; [|by vm_compute].
  intros (i & j & a & b & Hij & Hi & Hj & Hab).
  destruct i as [|[|[|[|i]]]]; destruct j as [|[|[|[|j]]]];
    simpl in Hi, Hj; simplify_eq; try lia; discriminate Hab.
Qed.

(** C9, amended: the listing of [FormatPairings] has one line per pairing,
    in the sorted order of the pairings; every line reads
    [name (group) gives to name (group)] when two people of the groups have
    the same name after trimming and lower-casing, and [name gives to name]
    when no two have. *)
Theorem C9_listing groups ps :
  exists lines,
    (FormatPairings groups ps).1 = join nl lines
    /\ length lines = size ps
    /\ sorted ps ≡ₚ elements ps
    /\ Sorted pairing_le (sorted ps)
    /\ (forall i (p : pairing),
          sorted ps !! i = Some p ->
          (share_name (fun s => strip (lower s)) groups ->
           lines !! i
           = Some (p.1.1 +:+ " (" +:+ fmt_d p.1.2 +:+ ") gives to "
                   +:+ p.2.1 +:+ " (" +:+ fmt_d p.2.2 +:+ ")"))
          /\ (~ share_name (fun s => strip (lower s)) groups ->
              lines !! i = Some (p.1.1 +:+ " gives to " +:+ p.2.1))).
Proof.
  exists (map (print_line (HaveDuplicateNames groups)) (sorted ps)).
  split_and!.
  - done.
  - by rewrite length_map, sorted_length.
  - apply sorted_Permutation.
  - apply sorted_Sorted.
  - intros i [[gn gg] [rn rg]] Hi.
    change map with (@fmap list _). rewrite list_lookup_fmap, Hi. simpl.
    split; intros Hs.
    + apply HaveDuplicateNames_spec in Hs. by rewrite Hs.
    + destruct (HaveDuplicateNames groups) eqn:E; [|done].
      by apply HaveDuplicateNames_spec in E.
Qed.

Lemma C9_listing_witness :
  exists lines,
    (FormatPairings spaced_groups spaced_set).1 = join nl lines
    /\ lines !! 0 = Some " Al (0) gives to al (1)".
Proof.
  destruct (C9_listing spaced_groups spaced_set)
    as (lines & Hjoin & _ & _ & _ & Hline).
  exists lines. split; [exact Hjoin|].
  destruct (Hline 0 ((" Al", 0), ("al", 1))) as [H _]; [by vm_compute|].
  apply H. exists 0, 2, " Al", "al". split_and!; [lia|done|done|done].
Defined.

(** * Further properties of the code *)

(** ** One attempt *)

Section Accounting.
Variable rng : nat -> nat.
Variable groups : list (list string).
Variable lastRun : list string.
Variable maxAttempts : nat.
Variable k0 : nat.

Lemma accounted_initial : accounted maxAttempts k0 (initial_state groups k0).
Proof.
  unfold accounted, initial_state. cbn [drawn attempts pairings givers].
  rewrite size_empty. split; [lia|]. left. lia.
Qed.

Lemma iteration_accounted st st' k :
  accounted maxAttempts k0 st ->
  iteration rng lastRun maxAttempts st = (Continue st', k) ->
  accounted maxAttempts k0 st'.
Proof.
  intros [Hd Ha]. unfold iteration.
  destruct (maxAttempts <? attempts st) eqn:Hlt; [done|].
  apply Nat.ltb_ge in Hlt.
  destruct (RC rng (givers st) (drawn st)) as [[giver k1]|] eqn:Eg; [|done].
  destruct (RC rng (getters st) k1) as [[getter k2]|] eqn:Er; [|done].
  pose proof (RC_Some _ _ _ _ _ Eg) as [Hgin ->].
  pose proof (RC_Some _ _ _ _ _ Er) as [_ ->].
  assert (givers st <> []) as Hne by (intros E; rewrite E in Hgin; by apply elem_of_nil in Hgin).
  assert (forall st1, st1 = LoopState (givers st) (getters st) (pairings st)
                              (S (attempts st)) (S (S (drawn st))) ->
                      accounted maxAttempts k0 st1) as Hretry.
  { intros st1 ->. unfold accounted. cbn [drawn attempts pairings givers].
    split; [lia|].
    destruct (decide (attempts st = maxAttempts)); [right; split; [lia|done]|left; lia]. }
  repeat case_bool_decide; simpl; try (intros [= <- _]; by apply Hretry).
  destruct (list_remove giver (givers st)) as [givers'|] eqn:Rg; [|done].
  destruct (list_remove getter (getters st)) as [getters'|] eqn:Rr; [|done].
  intros [= <- _]. unfold accounted. cbn [drawn attempts pairings givers].
  rewrite size_union, size_singleton by (apply disjoint_singleton_l; done).
  split; [lia|]. left. lia.
Qed.

Lemma while_givers_accounted fuel st r k' :
  loop_inv groups lastRun st -> accounted maxAttempts k0 st ->
  while_givers fuel rng lastRun maxAttempts st = (r, k') ->
  match r with
  | Completed ps n =>
      n <= maxAttempts /\ k' = k0 + 2 * (n + length (people groups))
  | Stuck =>
      exists accepted, accepted < length (people groups)
        /\ k' = k0 + 2 * (S maxAttempts + accepted)
  | _ => True
  end.
Proof.
  revert st. induction fuel as [|fuel IH]; intros st Hinv Hacc; simpl.
  { by intros [= <- _]. }
  assert (size (pairings st) + length (givers st) = length (people groups)) as Hsize.
  { destruct Hinv as (Hg & _ & _). apply Permutation_length in Hg.
    by rewrite length_app, length_fmap in Hg. }
  destruct (givers st) as [|g gs] eqn:Eg.
  - destruct (getters st); intros [= <- <-]; [|done].
    destruct Hacc as [Hd [Ha|[_ Hne]]]; [|by rewrite Eg in Hne].
    simpl in Hsize. split; [done|]. rewrite Hd. lia.
  - destruct (iteration rng lastRun maxAttempts st) as [[st'| |e] k] eqn:Eit.
    + apply IH; [by eapply iteration_inv|by eapply iteration_accounted].
    + intros [= <- <-]. unfold iteration in Eit.
      destruct (maxAttempts <? attempts st) eqn:Hlt.
      * apply Nat.ltb_lt in Hlt. simplify_eq.
        destruct Hacc as [Hd [Ha|[Ha _]]]; [lia|].
        exists (size (pairings st)). simpl in Hsize. split; [lia|]. rewrite Hd. lia.
      * destruct (RC rng (givers st) (drawn st)) as [[giver k1]|]; [|done].
        destruct (RC rng (getters st) k1) as [[getter k2]|]; [|done].
        repeat case_bool_decide; simpl in Eit; try done.
        destruct (list_remove giver (givers st)); [|done].
        by destruct (list_remove getter (getters st)).
    + by intros [= <- _].
Qed.

End Accounting.

(** X1: a call of [AttemptToGenPairings] always comes back with a value, a
    set or [None]: [random.choice] never meets an empty pool and
    [list.remove] never misses, so no exception is raised, and the loop
    ends. *)
Theorem X1_attempt_returns rng groups lastRun maxAttempts k :
  is_Some (returned (AttemptToGenPairings rng groups lastRun maxAttempts k).1)
  /\ forall e k',
       AttemptToGenPairings rng groups lastRun maxAttempts k <> (Raised e, k').
Proof.
  destruct (AttemptToGenPairings_result rng groups lastRun maxAttempts k)
    as [k' [H|(ps & n & H & _)]]; rewrite H; simpl; split; by eauto.
Qed.

(** X2: a successful attempt reports at most [maxAttempts] failed draws and
    has read exactly two random numbers per failed draw and per person; an
    abandoned attempt has read two numbers for each of its
    [maxAttempts + 1] failed draws and for each pairing accepted until
    then, fewer than there are people. *)
Theorem X2_draws_accounted rng groups lastRun maxAttempts k :
  (forall ps n k',
     AttemptToGenPairings rng groups lastRun maxAttempts k = (Completed ps n, k') ->
     n <= maxAttempts /\ k' = k + 2 * (n + length (people groups)))
  /\ (forall k',
        AttemptToGenPairings rng groups lastRun maxAttempts k = (Stuck, k') ->
        exists accepted, accepted < length (people groups)
          /\ k' = k + 2 * (S maxAttempts + accepted)).
Proof.
  split.
  - intros ps n k' H.
    exact (while_givers_accounted rng groups lastRun maxAttempts k _ _ _ _
             (loop_inv_initial groups lastRun k)
             (accounted_initial groups maxAttempts k) H).
  - intros k' H.
    exact (while_givers_accounted rng groups lastRun maxAttempts k _ _ _ _
             (loop_inv_initial groups lastRun k)
             (accounted_initial groups maxAttempts k) H).
Qed.

Lemma X2_draws_accounted_witness :
  0 <= default_maxAttempts /\ 8 = 0 + 2 * (0 + length (people two_couples)).
Proof.
  destruct (X2_draws_accounted two_couples_rng two_couples [] default_maxAttempts 0)
    as [H _].
  apply (H two_couples_set 0 8). vm_compute. reflexivity.
Defined.

(** ** Inputs that cannot be paired *)

Lemma giver_in_set groups lastRun ps x :
  valid_MatchSet groups lastRun ps -> x ∈ people groups ->
  exists r, (x, r) ∈ ps /\ r ∈ people groups /\ x <> r /\ x.2 <> r.2 /\ (r, x) ∉ ps.
Proof.
  intros [(_ & Hg & Hr) Hall] Hx.
  rewrite <- Hg in Hx. apply list_elem_of_fmap in Hx as ([g r] & -> & Hp).
  exists r. simpl.
  assert (r ∈ people groups) as Hrin.
  { rewrite <- Hr. apply list_elem_of_fmap. by exists (g, r). }
  apply elem_of_elements in Hp.
  destruct (Hall _ Hp) as (? & ? & _ & ?). done.
Qed.

Lemma few_people_infeasible groups lastRun ps :
  0 < length (people groups) < 3 -> ~ valid_MatchSet groups lastRun ps.
Proof.
  intros Hlen Hv.
  destruct (people groups) as [|x [|y [|z l]]] eqn:E; simpl in Hlen; try lia.
  - destruct (giver_in_set _ _ _ x Hv) as (r & _ & Hr & Hne & _).
    { rewrite E. apply list_elem_of_here. }
    rewrite E in Hr. apply list_elem_of_singleton in Hr. done.
  - destruct (giver_in_set _ _ _ x Hv) as (r & Hxr & Hr & Hne & _ & Hrev).
    { rewrite E. apply list_elem_of_here. }
    destruct (giver_in_set _ _ _ y Hv) as (r' & Hyr & Hr' & Hne' & _).
    { rewrite E. apply list_elem_of_further, list_elem_of_here. }
    rewrite E in Hr, Hr'.
    apply elem_of_cons in Hr as [->|Hr]; [done|].
    apply list_elem_of_singleton in Hr as ->.
    apply elem_of_cons in Hr' as [->|Hr']; [done|].
    by apply list_elem_of_singleton in Hr'.
Qed.

Lemma one_group_infeasible groups lastRun ps g :
  people groups <> [] -> Forall (fun x => x.2 = g) (people groups) ->
  ~ valid_MatchSet groups lastRun ps.
Proof.
  intros Hne Hall Hv. rewrite Forall_forall in Hall.
  destruct (people groups) as [|x l] eqn:E; [done|]. rewrite <- E in *.
  destruct (giver_in_set _ _ _ x Hv) as (r & _ & Hr & _ & Hgrp & _).
  { rewrite E. apply list_elem_of_here. }
  apply Hgrp. rewrite (Hall r Hr). apply Hall. rewrite E. apply list_elem_of_here.
Qed.

Lemma AttemptToGenPairings_infeasible rng groups lastRun maxAttempts k :
  (forall ps, ~ valid_MatchSet groups lastRun ps) ->
  exists k', AttemptToGenPairings rng groups lastRun maxAttempts k = (Stuck, k').
Proof.
  intros Hno.
  destruct (AttemptToGenPairings_result rng groups lastRun maxAttempts k)
    as [k' [H|(ps & n & _ & Hv)]]; [by exists k'|by apply Hno in Hv].
Qed.

Lemma GenPairings_infeasible rng groups lastRun fuel k :
  (forall ps, ~ valid_MatchSet groups lastRun ps) ->
  GenPairings fuel rng groups lastRun k = None.
Proof.
  intros Hno. revert k. induction fuel as [|fuel IH]; intros k; [done|]. simpl.
  destruct (AttemptToGenPairings_infeasible rng groups lastRun default_maxAttempts k Hno)
    as [k' ->]. apply IH.
Qed.

(** X3: with one or two people in all, every attempt is abandoned and
    [GenPairings] never comes back: one person cannot give to themself, and
    of two people the second would have to give back to the first. *)
Theorem X3_fewer_than_three_people rng groups lastRun :
  0 < length (people groups) < 3 ->
  (forall maxAttempts k,
     exists k', AttemptToGenPairings rng groups lastRun maxAttempts k = (Stuck, k'))
  /\ (forall fuel k, GenPairings fuel rng groups lastRun k = None).
Proof.
  intros Hlen. split.
  - intros maxAttempts k. apply AttemptToGenPairings_infeasible.
    intros ps. by apply few_people_infeasible.
  - intros fuel k. apply GenPairings_infeasible.
    intros ps. by apply few_people_infeasible.
Qed.

Lemma X3_fewer_than_three_people_witness :
  GenPairings 3 zeros [["Alice"]; ["Bob"]] [] 0 = None.
Proof.
  apply (X3_fewer_than_three_people zeros [["Alice"]; ["Bob"]] []).
  simpl. lia.
Defined.

(** X4: when all the people are in one group, every attempt is abandoned
    and [GenPairings] never comes back, however many people there are. *)
Theorem X4_one_group rng groups lastRun g :
  people groups <> [] -> Forall (fun x => x.2 = g) (people groups) ->
  (forall maxAttempts k,
     exists k', AttemptToGenPairings rng groups lastRun maxAttempts k = (Stuck, k'))
  /\ (forall fuel k, GenPairings fuel rng groups lastRun k = None).
Proof.
  intros Hne Hall. split.
  - intros maxAttempts k. apply AttemptToGenPairings_infeasible.
    intros ps. by eapply one_group_infeasible.
  - intros fuel k. apply GenPairings_infeasible.
    intros ps. by eapply one_group_infeasible.
Qed.

Lemma X4_one_group_witness :
  GenPairings 3 zeros [["Alice"; "Bob"; "Carol"; "Dave"]] [] 0 = None.
Proof.
  apply (X4_one_group zeros [["Alice"; "Bob"; "Carol"; "Dave"]] [] 0).
  - discriminate.
  - vm_compute. repeat constructor.
Defined.

(** ** [GenPairings] as a whole *)

(** X5: [GenPairings] raises no exception: as long as it runs it is
    retrying, and when it comes back it is with a set. *)
Theorem X5_GenPairings_never_raises fuel rng groups lastRun k e :
  GenPairings fuel rng groups lastRun k <> Some (Exception e).
Proof.
  revert k. induction fuel as [|fuel IH]; intros k; [done|]. simpl.
  destruct (AttemptToGenPairings_result rng groups lastRun default_maxAttempts k)
    as [k' [->|(ps & n & -> & _)]]; [apply IH|done].
Qed.

(** X6: [GenPairings] can only come back when the rules can be met: if no
    set of pairings satisfies them for the input, it runs for ever whatever
    the random draws. *)
Theorem X6_GenPairings_hangs_when_infeasible rng groups lastRun :
  (forall ps, ~ valid_MatchSet groups lastRun ps) ->
  forall fuel k, GenPairings fuel rng groups lastRun k = None.
Proof. intros Hno fuel k. by apply GenPairings_infeasible. Qed.

Lemma X6_GenPairings_hangs_when_infeasible_witness :
  GenPairings 3 zeros three_and_one [] 0 = None.
Proof.
  apply (X6_GenPairings_hangs_when_infeasible zeros three_and_one []).
  apply three_and_one_infeasible.
Defined.

(** X7: whatever the groups and the history, as soon as there is one person
    some random draws keep [GenPairings] running for ever: a source that
    always picks the first of each pool draws the same person as giver and
    as getter. *)
Theorem X7_GenPairings_may_never_return groups lastRun :
  people groups <> [] ->
  exists rng, forall fuel k, GenPairings fuel rng groups lastRun k = None.
Proof. intros Hne. exists zeros. intros fuel k. by apply GenPairings_zeros. Qed.

Lemma X7_GenPairings_may_never_return_witness :
  exists rng, forall fuel k, GenPairings fuel rng two_couples [] k = None.
Proof. apply (X7_GenPairings_may_never_return two_couples []). discriminate. Defined.

(** X8: with no person at all the loop is not entered: the attempt returns
    the empty set at once, without a draw, and so does [GenPairings]; the
    two strings [FormatPairings] makes of it are empty, and [LoadGroups]
    reads an empty history back. *)
Theorem X8_no_people rng groups lastRun maxAttempts k :
  people groups = [] ->
  AttemptToGenPairings rng groups lastRun maxAttempts k = (Completed ∅ 0, k)
  /\ (forall fuel, GenPairings (S fuel) rng groups lastRun k = Some (Return ∅))
  /\ FormatPairings groups ∅ = (EmptyString, EmptyString)
  /\ (LoadGroups (Config groups (Some (FormatPairings groups ∅).2))).2 = [].
Proof.
  intros Hnone.
  assert (forall m, AttemptToGenPairings rng groups lastRun m k = (Completed ∅ 0, k))
    as Hrun.
  { intros m. unfold AttemptToGenPairings, passes, initial_state. simpl.
    by rewrite Hnone. }
  split_and!; [done| |done|done].
  intros fuel. simpl. by rewrite Hrun.
Qed.

Lemma X8_no_people_witness :
  AttemptToGenPairings zeros [[]; []] ["0alice-1bob"] default_maxAttempts 5
  = (Completed ∅ 0, 5).
Proof.
  apply (X8_no_people zeros [[]; []] ["0alice-1bob"] default_maxAttempts 5).
  reflexivity.
Defined.

(** ** The characters of a key *)

Lemma has_char_app f a b : has_char f (a +:+ b) = has_char f a || has_char f b.
Proof.
  induction a as [|c a IH]; [done|].
  change (String c a +:+ b) with (String c (a +:+ b)). simpl.
  by rewrite IH, orb_assoc.
Qed.

Lemma has_char_weaken (f g : ascii -> bool) s :
  (forall c, f c = true -> g c = true) -> has_char g s = false -> has_char f s = false.
Proof.
  intros Hfg. induction s as [|c s IH]; simpl; [done|].
  intros [Hc Hs]%orb_false_iff. rewrite (IH Hs), orb_false_r.
  destruct (f c) eqn:E; [|done]. by rewrite (Hfg c E) in Hc.
Qed.

Lemma fmt_d_digits n : has_char (fun c => negb (is_digit c)) (fmt_d n) = false.
Proof.
  unfold fmt_d.
  assert (forall d, has_char (fun c => negb (is_digit c)) (NilEmpty.string_of_uint d)
                    = false) as Hd by (induction d; simpl; done).
  destruct (Nat.to_uint n); try apply Hd. done.
Qed.

Lemma digit_not_quote c : is_quote c = true -> negb (is_digit c) = true.
Proof. all_chars c. Qed.

Lemma fmt_d_no_quote n : has_char is_quote (fmt_d n) = false.
Proof. eapply has_char_weaken; [apply digit_not_quote|apply fmt_d_digits]. Qed.

Lemma remove_quotes_no_quote s : has_char is_quote (remove_quotes s) = false.
Proof.
  induction s as [|c s IH]; simpl; [done|].
  destruct (is_quote c) eqn:E; simpl; [done|]. by rewrite E, IH.
Qed.

Lemma PairingToString_no_quote p : has_char is_quote (PairingToString p) = false.
Proof.
  destruct p as [[gn gg] [rn rg]]. unfold PairingToString.
  by rewrite !has_char_app, !fmt_d_no_quote, !remove_quotes_no_quote.
Qed.

Lemma join_no_quote ks :
  Forall (fun k => has_char is_quote k = false) ks ->
  has_char is_quote (join "::" ks) = false.
Proof.
  induction 1 as [|k ks Hk Hks IH]; [done|].
  destruct ks as [|k' ks]; [done|].
  by rewrite join_cons, !has_char_app, Hk, IH.
Qed.

(** X9: a key holds no double-quote character, whatever the names are; so
    the history string of [FormatPairings] holds none and can stand between
    the quotes of the configuration file. *)
Theorem X9_key_characters :
  (forall p, has_char is_quote (PairingToString p) = false)
  /\ (forall groups ps, has_char is_quote (FormatPairings groups ps).2 = false).
Proof.
  split.
  - apply PairingToString_no_quote.
  - intros groups ps. unfold FormatPairings. cbn [snd]. apply join_no_quote.
    apply Forall_forall. intros k Hk.
    apply list_elem_of_fmap in Hk as (p & -> & _). apply PairingToString_no_quote.
Qed.

(** ** Reading a history *)

Lemma split_colons_nonempty s : split_colons s <> [].
Proof.
  destruct s as [|c rest]; [done|]. rewrite split_colons_cons.
  destruct rest as [|c2 rest2]; [done|].
  destruct (is_colon c && is_colon c2); [done|].
  by destruct (split_colons (String c2 rest2)).
Qed.

Lemma join_push_front sep c l :
  l <> [] -> join sep (push_front c l) = String c (join sep l).
Proof. destruct l as [|h [|h' t]]; done. Qed.

Lemma join_empty_head sep l :
  l <> [] -> join sep (EmptyString :: l) = sep +:+ join sep l.
Proof. destruct l; done. Qed.

Lemma is_colon_eq c : is_colon c = true -> c = ":"%char.
Proof. all_chars c. Qed.

Lemma join_split_colons s : join "::" (split_colons s) = s.
Proof.
  assert (join "::" (split_colons s) = s
          /\ forall c, join "::" (split_colons (String c s)) = String c s) as [H _];
    [|done].
  induction s as [|c2 rest [IH1 IH2]]; [by split|].
  split; [apply IH2|]. intros c. rewrite split_colons_cons.
  destruct (is_colon c && is_colon c2) eqn:E.
  - apply andb_true_iff in E as [->%is_colon_eq ->%is_colon_eq].
    by rewrite join_empty_head, IH1 by apply split_colons_nonempty.
  - by rewrite join_push_front, IH2 by apply split_colons_nonempty.
Qed.

Lemma rstrip_blank s : blank s = true -> rstrip s = EmptyString.
Proof.
  unfold blank. induction s as [|c s IH]; simpl; [done|].
  intros [Hc%negb_false_iff Hs]%negb_true_iff%orb_false_iff.
  rewrite IH; [by rewrite Hc|by rewrite Hs].
Qed.

Lemma rstrip_not_blank s : blank s = false -> blank (rstrip s) = false.
Proof.
  induction s as [|c s IH]; [done|].
  destruct (blank s) eqn:Hs.
  - unfold blank in *. simpl. rewrite (rstrip_blank s) by done.
    apply negb_true_iff in Hs. rewrite Hs, orb_false_r.
    intros Hc%negb_false_iff%negb_true_iff. rewrite Hc. simpl. by rewrite Hc.
  - intros _. specialize (IH eq_refl). simpl.
    destruct (rstrip s) as [|d r] eqn:E; [done|].
    unfold blank in *. simpl in *. apply negb_false_iff in IH.
    by rewrite IH, orb_true_r.
Qed.

Lemma lstrip_empty s : lstrip s = EmptyString -> blank s = true.
Proof.
  unfold blank. induction s as [|c s IH]; simpl; [done|].
  destruct (is_space c); [|done]. intros H. simpl. by apply IH.
Qed.

Lemma strip_empty s : strip s = EmptyString <-> blank s = true.
Proof.
  unfold strip. split.
  - intros H%lstrip_empty. destruct (blank s) eqn:E; [done|].
    by rewrite (rstrip_not_blank s E) in H.
  - intros H. by rewrite (rstrip_blank s H).
Qed.

(** X10: the entries [LoadGroups] reads, joined again by the delimiter, are
    the history field without the whitespace around it: the split loses
    nothing, wherever the delimiters are. *)
Theorem X10_LoadGroups_loses_nothing cfg :
  join "::" (LoadGroups cfg).2 = strip (default EmptyString (cfg_lastRun cfg))
  /\ (LoadGroups cfg).1 = cfg_groups cfg.
Proof.
  split; [|done]. unfold LoadGroups. cbn [snd].
  destruct (strip (default EmptyString (cfg_lastRun cfg))) as [|c s] eqn:E; [done|].
  apply join_split_colons.
Qed.

(** X11: [LoadGroups] gives an empty history exactly when the field is
    missing, empty or made of whitespace only; otherwise the history has
    at least one entry. *)
Theorem X11_LoadGroups_empty_history cfg :
  (LoadGroups cfg).2 = []
  <-> blank (default EmptyString (cfg_lastRun cfg)) = true.
Proof.
  rewrite <- strip_empty. unfold LoadGroups. cbn [snd].
  destruct (strip (default EmptyString (cfg_lastRun cfg))) as [|c s] eqn:E; [done|].
  split; [|done]. intros H. by apply split_colons_nonempty in H.
Qed.

(** ** From one run to the next *)

Lemma LoadGroups_FormatPairings groups groups' ps :
  Forall (fun k => colon_free k = true) (map PairingToString (sorted ps)) ->
  (forall k, last (map PairingToString (sorted ps)) = Some k -> tight_end k) ->
  (LoadGroups (Config groups' (Some (FormatPairings groups ps).2))).2
  = map PairingToString (sorted ps).
Proof.
  intros Hfree Hlast. unfold FormatPairings. cbn [snd].
  apply LoadGroups_join; [done| |done].
  apply Forall_forall. intros k Hk.
  apply list_elem_of_fmap in Hk as (p & -> & _). apply PairingToString_head.
Qed.

(** X12: when the history string of one run is read back whole (no key
    holds the delimiter or ends with a colon, the last one does not end
    with whitespace), a set returned by the next run, for the same or for
    other groups, has no pairing with the key of a pairing of the first
    run; so nobody gives to the same person two runs in a row. *)
Theorem X12_next_run_repeats_nothing rng groups groups' ps maxAttempts k ps' n k' :
  Forall (fun key => colon_free key = true) (map PairingToString (sorted ps)) ->
  (forall key, last (map PairingToString (sorted ps)) = Some key -> tight_end key) ->
  AttemptToGenPairings rng groups'
    (LoadGroups (Config groups' (Some (FormatPairings groups ps).2))).2
    maxAttempts k = (Completed ps' n, k') ->
  (forall p q, p ∈ ps -> q ∈ ps' -> PairingToString q <> PairingToString p)
  /\ (forall p, p ∈ ps -> p ∉ ps').
Proof.
  intros Hfree Hlast Hrun.
  rewrite (LoadGroups_FormatPairings groups groups' ps Hfree Hlast) in Hrun.
  apply AttemptToGenPairings_Completed in Hrun as [_ Hall].
  assert (forall p q, p ∈ ps -> q ∈ ps' -> PairingToString q <> PairingToString p) as H.
  { intros p q Hp Hq Heq. destruct (Hall q Hq) as (_ & _ & Hkey & _).
    apply Hkey. rewrite Heq. apply list_elem_of_fmap. exists p. split; [done|].
    rewrite (sorted_Permutation ps). by apply elem_of_elements. }
  split; [done|]. intros p Hp Hp'. by apply (H p p).
Qed.

Lemma X12_next_run_repeats_nothing_witness :
  (("Alice", 0), ("Carol", 1)) ∉ next_year_set.
Proof.
  assert (forall p, p ∈ two_couples_set -> p ∉ next_year_set) as H.
  { apply (X12_next_run_repeats_nothing next_year_rng two_couples two_couples
             two_couples_set default_maxAttempts 0 next_year_set 0 8).
    - apply (bool_decide_unpack _). vm_compute. exact I.
    - vm_compute. intros key [= <-]. reflexivity.
    - vm_compute. reflexivity. }
  apply H. apply (bool_decide_unpack _). vm_compute. exact I.
Defined.

(** ** Names and people *)

Lemma enumerate_people_names i groups :
  (enumerate_people i groups).*1 = concat groups.
Proof.
  revert i. induction groups as [|names rest IH]; intros i; [done|]. simpl.
  rewrite fmap_app, IH. f_equal.
  induction names as [|name names IHn]; [done|]. simpl in *. by f_equal.
Qed.

Lemma HaveDuplicateNames_false_NoDup groups :
  HaveDuplicateNames groups = false -> NoDup (people groups).
Proof.
  intros Hf. apply (NoDup_fmap_1 fst). unfold people.
  rewrite enumerate_people_names. apply NoDup_alt. intros i j a Hi Hj.
  destruct (decide (i = j)) as [|Hne]; [done|]. exfalso.
  assert (HaveDuplicateNames groups = true) as Ht; [|congruence].
  apply HaveDuplicateNames_spec.
  destruct (decide (i < j)).
  - exists i, j, a, a. done.
  - exists j, i, a, a. split_and!; [lia|done|done|done].
Qed.

(** X13: when [HaveDuplicateNames] is false, so that the listing shows
    names without groups, no person is listed twice and every returned set
    is a true bijection: every person gives in exactly one pairing and
    gets in exactly one. *)
Theorem X13_distinct_names_exact_bijection rng groups lastRun maxAttempts k ps n k' :
  HaveDuplicateNames groups = false ->
  AttemptToGenPairings rng groups lastRun maxAttempts k = (Completed ps n, k') ->
  NoDup (people groups) /\ exactly_once groups ps.
Proof.
  intros Hnames Hrun. apply HaveDuplicateNames_false_NoDup in Hnames.
  split; [done|]. eapply valid_exactly_once; [|done].
  by eapply AttemptToGenPairings_Completed.
Qed.

Lemma X13_distinct_names_exact_bijection_witness :
  NoDup (people two_couples) /\ exactly_once two_couples two_couples_set.
Proof.
  apply (X13_distinct_names_exact_bijection two_couples_rng two_couples []
           default_maxAttempts 0 two_couples_set 0 8).
  - vm_compute. reflexivity.
  - vm_compute. reflexivity.
Defined.

(** ** The bound and the random source *)

Lemma iteration_larger_bound rng lastRun m m' st st' k :
  m <= m' ->
  iteration rng lastRun m st = (Continue st', k) ->
  iteration rng lastRun m' st = (Continue st', k).
Proof.
  intros Hle. unfold iteration.
  destruct (m <? attempts st) eqn:Hm; [done|].
  apply Nat.ltb_ge in Hm.
  assert ((m' <? attempts st) = false) as -> by (apply Nat.ltb_ge; lia). done.
Qed.

Lemma while_givers_larger_bound rng lastRun m m' fuel fuel' st ps n k' :
  m <= m' -> fuel <= fuel' ->
  while_givers fuel rng lastRun m st = (Completed ps n, k') ->
  while_givers fuel' rng lastRun m' st = (Completed ps n, k').
Proof.
  intros Hle. revert fuel' st. induction fuel as [|fuel IH]; intros fuel' st Hf; [done|].
  destruct fuel' as [|fuel']; [lia|]. simpl.
  destruct (givers st); [done|].
  destruct (iteration rng lastRun m st) as [[st1| |e] k] eqn:Eit; try done.
  rewrite (iteration_larger_bound _ _ _ _ _ _ _ Hle Eit). apply IH. lia.
Qed.

(** X14: raising the bound loses nothing: an attempt that returns a set
    with [maxAttempts = m] returns the same set, after the same draws, with
    any larger bound. *)
Theorem X14_larger_bound_same_set rng groups lastRun m m' k ps n k' :
  m <= m' ->
  AttemptToGenPairings rng groups lastRun m k = (Completed ps n, k') ->
  AttemptToGenPairings rng groups lastRun m' k = (Completed ps n, k').
Proof.
  intros Hle. unfold AttemptToGenPairings.
  apply while_givers_larger_bound; [done|]. unfold passes. simpl. lia.
Qed.

Lemma X14_larger_bound_same_set_witness :
  AttemptToGenPairings two_couples_rng two_couples [] 7 0
  = (Completed two_couples_set 0, 8).
Proof.
  apply (X14_larger_bound_same_set two_couples_rng two_couples [] 0 7).
  - lia.
  - vm_compute. reflexivity.
Defined.

Lemma iteration_same_draws rng rng' lastRun maxAttempts st :
  rng (drawn st) = rng' (drawn st) ->
  rng (S (drawn st)) = rng' (S (drawn st)) ->
  iteration rng lastRun maxAttempts st = iteration rng' lastRun maxAttempts st.
Proof.
  intros H0 H1. unfold iteration, RC.
  destruct (maxAttempts <? attempts st); [done|].
  destruct (givers st) as [|g gs]; [done|]. rewrite H0.
  destruct ((g :: gs) !! _) as [giver|]; simpl; [|done].
  destruct (getters st) as [|r rs]; [done|]. by rewrite H1.
Qed.

Lemma while_givers_same_draws rng rng' groups lastRun maxAttempts k0 fuel st :
  (forall i, k0 <= i < k0 + 2 * (maxAttempts + length (people groups)) ->
             rng i = rng' i) ->
  loop_inv groups lastRun st -> accounted maxAttempts k0 st ->
  while_givers fuel rng lastRun maxAttempts st
  = while_givers fuel rng' lastRun maxAttempts st.
Proof.
  intros Hwin. revert st. induction fuel as [|fuel IH]; intros st Hinv Hacc; [done|].
  simpl. destruct (givers st) as [|g gs] eqn:Eg; [done|].
  assert (iteration rng lastRun maxAttempts st = iteration rng' lastRun maxAttempts st)
    as Heq.
  { destruct (maxAttempts <? attempts st) eqn:Hlt.
    { unfold iteration. by rewrite Hlt. }
    apply Nat.ltb_ge in Hlt.
    assert (size (pairings st) + length (givers st) = length (people groups)) as Hsize.
    { destruct Hinv as (Hg & _ & _). apply Permutation_length in Hg.
      by rewrite length_app, length_fmap in Hg. }
    rewrite Eg in Hsize. simpl in Hsize. destruct Hacc as [Hd _].
    apply iteration_same_draws; apply Hwin; lia. }
  rewrite <- Heq.
  destruct (iteration rng lastRun maxAttempts st) as [[st'| |e] k] eqn:Eit; try done.
  apply IH; [by eapply iteration_inv|by eapply iteration_accounted].
Qed.

(** X15: an attempt entered at position [k] of the random source reads
    only the next [2 * (maxAttempts + number of people)] numbers: two
    sources that agree on them give the same result. *)
Theorem X15_attempt_reads_a_window rng rng' groups lastRun maxAttempts k :
  (forall i, k <= i < k + 2 * (maxAttempts + length (people groups)) ->
             rng i = rng' i) ->
  AttemptToGenPairings rng groups lastRun maxAttempts k
  = AttemptToGenPairings rng' groups lastRun maxAttempts k.
Proof.
  intros Hwin. unfold AttemptToGenPairings.
  eapply while_givers_same_draws; [done|apply loop_inv_initial|apply accounted_initial].
Qed.

Lemma X15_attempt_reads_a_window_witness :
  AttemptToGenPairings (replay [0; 0; 0; 0; 0; 0; 5; 7]) [["Alice"]; ["Bob"]] [] 1 0
  = AttemptToGenPairings zeros [["Alice"]; ["Bob"]] [] 1 0.
Proof.
  apply (X15_attempt_reads_a_window (replay [0; 0; 0; 0; 0; 0; 5; 7]) zeros
           [["Alice"]; ["Bob"]] [] 1 0).
  intros i Hi. simpl in Hi.
  destruct i as [|[|[|[|[|[|i]]]]]]; [reflexivity..|lia].
Defined.

(** ** What the history is used for *)

Lemma iteration_same_history rng groups lastRun lastRun' maxAttempts st :
  (forall g r, g ∈ people groups -> r ∈ people groups ->
     PairingToString (g, r) ∈ lastRun <-> PairingToString (g, r) ∈ lastRun') ->
  loop_inv groups lastRun st ->
  iteration rng lastRun maxAttempts st = iteration rng lastRun' maxAttempts st.
Proof.
  intros Hsame (Hg & Hr & _). unfold iteration.
  destruct (maxAttempts <? attempts st); [done|].
  destruct (RC rng (givers st) (drawn st)) as [[giver k1]|] eqn:Eg; [|done].
  destruct (RC rng (getters st) k1) as [[getter k2]|] eqn:Er; [|done].
  apply RC_Some in Eg as [Hgin _], Er as [Hrin _].
  assert (giver ∈ people groups) as Hgp.
  { rewrite <- Hg. apply elem_of_app. by right. }
  assert (getter ∈ people groups) as Hrp.
  { rewrite <- Hr. apply elem_of_app. by right. }
  by rewrite (bool_decide_ext _ _ (Hsame giver getter Hgp Hrp)).
Qed.

Lemma while_givers_same_history rng groups lastRun lastRun' maxAttempts fuel st :
  (forall g r, g ∈ people groups -> r ∈ people groups ->
     PairingToString (g, r) ∈ lastRun <-> PairingToString (g, r) ∈ lastRun') ->
  loop_inv groups lastRun st ->
  while_givers fuel rng lastRun maxAttempts st
  = while_givers fuel rng lastRun' maxAttempts st.
Proof.
  intros Hsame. revert st. induction fuel as [|fuel IH]; intros st Hinv; [done|].
  simpl. destruct (givers st) as [|g gs]; [done|].
  rewrite <- (iteration_same_history rng groups lastRun lastRun' maxAttempts st Hsame Hinv).
  destruct (iteration rng lastRun maxAttempts st) as [[st'| |e] k] eqn:Eit; try done.
  apply IH. by eapply iteration_inv.
Qed.

(** X16: the history takes part only through the keys of pairings between
    people of the groups: two histories that hold the same such keys give
    the same result, so the order of the entries, repeated entries and
    entries that are the key of no possible pairing change nothing. *)
Theorem X16_history_only_through_keys rng groups lastRun lastRun' maxAttempts k :
  (forall g r, g ∈ people groups -> r ∈ people groups ->
     PairingToString (g, r) ∈ lastRun <-> PairingToString (g, r) ∈ lastRun') ->
  AttemptToGenPairings rng groups lastRun maxAttempts k
  = AttemptToGenPairings rng groups lastRun' maxAttempts k.
Proof.
  intros Hsame. unfold AttemptToGenPairings.
  apply (while_givers_same_history rng groups); [done|apply loop_inv_initial].
Qed.

Lemma X16_history_only_through_keys_witness :
  AttemptToGenPairings two_couples_rng [["Alice"]; ["Bob"]] ["0alice-1bob"] 3 0
  = AttemptToGenPairings two_couples_rng [["Alice"]; ["Bob"]]
      ["no such key"; "0alice-1bob"; "0alice-1bob"] 3 0.
Proof.
  apply (X16_history_only_through_keys two_couples_rng [["Alice"]; ["Bob"]]
           ["0alice-1bob"] ["no such key"; "0alice-1bob"; "0alice-1bob"] 3 0).
  intros g r Hg Hr.
  change (people [["Alice"]; ["Bob"]]) with [("Alice", 0); ("Bob", 1)] in Hg, Hr.
  apply elem_of_cons in Hg as [->|Hg%list_elem_of_singleton];
    apply elem_of_cons in Hr as [->|Hr%list_elem_of_singleton]; subst;
    vm_compute; split; intros H;
    repeat (apply elem_of_cons in H as [H|H]; [try discriminate H|]);
    try (by apply elem_of_nil in H);
    first [apply list_elem_of_here
          |apply list_elem_of_further, list_elem_of_here].
Defined.
